(** * The YB wire codec of the RPC reactor: a shallow embedding

    This development embeds [src/yb/rpc/yb_rpc.cc] (the per-connection
    framing and demultiplexing code of the YB protocol: [ProcessCalls],
    [HandleCall], [HandleInboundCall], [ParseFrom],
    [SerializeResponseBuffer], [Serialize], [GetClientDeadline], [Idle])
    and the [DelayedTask] of [src/yb/rpc/reactor.h], and proves the
    properties the specification states about them.

    Conventions.
    - Machine integers are [Z] with the wrap-around written out
      ([to_uint32], [to_int32], [to_size_t]); [size_t] is 64 bits wide.
    - A [Slice] is the list of the bytes it points at; a pointer into a
      slice is its offset from [slice.data()].
    - Methods that mutate their object take the object and return the new
      one; an output parameter is passed in (its old value) and returned.
    - Logging and tracing ([LOG], [TRACE_EVENT]) and debug assertions
      ([DCHECK]) have no effect on the state that is modelled and are
      left out; so are [DumpPB], [LogTrace], [ToString] and the SASL
      set-up, which none of the properties is about.
    - What the code calls but the sources do not contain (the protobuf
      parser and serializers, [Connection::HandleCallResponse], the
      clock) is a parameter of the embedding. *)

From Stdlib Require Import ZArith Lia.
From Stdlib.Strings Require Import Byte.
From stdpp Require Import base option list gmap strings pretty.

Local Open Scope Z_scope.

(** ** Status *)

Module Status.

(** Modelled from the spec: [yb/util/status.h] is not among the sources.
    The kinds are those of the specification's error taxonomy
    (section 7), next to [kOk]. *)
Inductive Code : Set :=
  | kOk
  | kNetworkError
  | kCorruption
  | kTimedOut
  | kServiceUnavailable
  | kRemoteError
  | kIOError
  | kAborted.

#[global] Instance Code_eq_dec : EqDecision Code.
Proof. solve_decision. Defined.

Record t : Set := mk { code : Code; message : string }.

(** [Status::OK()]. *)
Definition OK : t := mk kOk "".

(** [STATUS(NetworkError, msg)] and [STATUS(Corruption, msg)]. *)
Definition NetworkError (msg : string) : t := mk kNetworkError msg.
Definition Corruption (msg : string) : t := mk kCorruption msg.

(** [STATUS(Corruption, msg, msg2)]: the two parts are joined. *)
Definition Corruption2 (msg msg2 : string) : t :=
  mk kCorruption (msg +:+ ": " +:+ msg2).

(** [status.ok()]. *)
Definition ok (s : t) : bool := bool_decide (code s = kOk).

Definition IsNetworkError (s : t) : bool := bool_decide (code s = kNetworkError).
Definition IsCorruption (s : t) : bool := bool_decide (code s = kCorruption).

End Status.

Abbreviation Status := Status.t.

(** ** Machine integers and bytes *)

Definition to_uint32 (z : Z) : Z := z mod 2 ^ 32.
Definition to_size_t (z : Z) : Z := z mod 2 ^ 64.

(** Conversion to [int32_t] / [int]: two's complement. *)
Definition to_int32 (z : Z) : Z := (z + 2 ^ 31) mod 2 ^ 32 - 2 ^ 31.

Definition int32_range (z : Z) : Prop := - 2 ^ 31 <= z < 2 ^ 31.

Definition Slice : Set := list byte.

(** [slice.size()], as a [size_t]. *)
Definition slice_size (s : Slice) : Z := Z.of_nat (length s).

(** [util::RefCntBuffer]: a shared byte buffer. *)
Definition RefCntBuffer : Set := list byte.

Definition byte_to_Z (b : byte) : Z := Z.of_N (Byte.to_N b).

(** [Slice(p, n)] for a pointer [p] at offset [pos] of [slice]. *)
Definition sub_slice (slice : Slice) (pos n : Z) : Slice :=
  take (Z.to_nat n) (drop (Z.to_nat pos) slice).

(** Modelled from the spec: [yb/gutil/endian.h] is not among the sources.
    [NetworkByteOrder::Load32(p)] reads the four bytes at [p] as a
    big-endian unsigned 32-bit number ("Length prefix: 4-byte big-endian
    unsigned").  Fewer than four readable bytes never occur: every call
    is guarded by [end - pos >= kMsgLengthPrefixLength]. *)
Definition Load32 (p : Slice) : Z :=
  match p with
  | b0 :: b1 :: b2 :: b3 :: _ =>
      Z.lor (Z.shiftl (byte_to_Z b0) 24)
        (Z.lor (Z.shiftl (byte_to_Z b1) 16)
           (Z.lor (Z.shiftl (byte_to_Z b2) 8) (byte_to_Z b3)))
  | _ => 0
  end.

(** Size of the length prefix of a frame (declared in a header that is
    not among the sources; four bytes by the wire format). *)
Definition kMsgLengthPrefixLength : Z := 4.

(** ** Time *)

(** [MonoTime] and [MonoDelta] ([yb/util/monotime.h]) are not among the
    sources; the code uses them through this interface only. *)
Class MonoTimeOps (MonoTime MonoDelta : Type) := {
  MonoTime_Max : MonoTime;
  MonoDelta_FromMilliseconds : Z -> MonoDelta;
  MonoTime_AddDelta : MonoTime -> MonoDelta -> MonoTime
}.

(** ** Protobuf headers *)

(** Modelled from the spec: the protobuf message definitions
    ([rpc_header.proto]) are not among the sources.  "Header is a
    protobuf-like structured record exposing [call_id], [remote_method],
    [timeout_millis], and response-side [is_error] and
    [sidecar_offsets[]]".  An optional field is an [option]; [has_x] is
    [is_Some] and the getter of an absent field returns the default. *)
Record RemoteMethodPB : Set := {
  pb_service_name : option string;
  pb_method_name : option string
}.

Definition RemoteMethodPB_default : RemoteMethodPB :=
  {| pb_service_name := None; pb_method_name := None |}.

(** [IsInitialized()]: every required field is set. *)
Definition IsInitialized (m : RemoteMethodPB) : bool :=
  bool_decide (is_Some (pb_service_name m)) &&
  bool_decide (is_Some (pb_method_name m)).

(** [InitializationErrorString()]: the missing required fields. *)
Definition InitializationErrorString (m : RemoteMethodPB) : string :=
  match pb_service_name m, pb_method_name m with
  | None, None => "service_name, method_name"
  | None, Some _ => "service_name"
  | Some _, None => "method_name"
  | Some _, Some _ => ""
  end.

Record RequestHeader : Set := {
  rh_call_id : Z;
  rh_remote_method : option RemoteMethodPB;
  rh_timeout_millis : option Z
}.

Definition RequestHeader_default : RequestHeader :=
  {| rh_call_id := 0; rh_remote_method := None; rh_timeout_millis := None |}.

Definition has_remote_method (h : RequestHeader) : bool :=
  bool_decide (is_Some (rh_remote_method h)).
Definition remote_method (h : RequestHeader) : RemoteMethodPB :=
  default RemoteMethodPB_default (rh_remote_method h).
Definition has_timeout_millis (h : RequestHeader) : bool :=
  bool_decide (is_Some (rh_timeout_millis h)).
Definition timeout_millis (h : RequestHeader) : Z :=
  default 0 (rh_timeout_millis h).

Record ResponseHeader : Set := {
  resp_call_id : Z;
  resp_is_error : bool;
  resp_sidecar_offsets : list Z
}.

Definition ResponseHeader_default : ResponseHeader :=
  {| resp_call_id := 0; resp_is_error := false; resp_sidecar_offsets := [] |}.

Definition set_call_id (h : ResponseHeader) (id : Z) : ResponseHeader :=
  {| resp_call_id := id; resp_is_error := resp_is_error h;
     resp_sidecar_offsets := resp_sidecar_offsets h |}.
Definition set_is_error (h : ResponseHeader) (b : bool) : ResponseHeader :=
  {| resp_call_id := resp_call_id h; resp_is_error := b;
     resp_sidecar_offsets := resp_sidecar_offsets h |}.
Definition add_sidecar_offsets (h : ResponseHeader) (off : Z) : ResponseHeader :=
  {| resp_call_id := resp_call_id h; resp_is_error := resp_is_error h;
     resp_sidecar_offsets := resp_sidecar_offsets h ++ [off] |}.

(** [RemoteMethod] and its [FromPB]. *)
Record RemoteMethod : Set := {
  service_name_ : string;
  method_name_ : string
}.

Definition FromPB (pb : RemoteMethodPB) : RemoteMethod :=
  {| service_name_ := default "" (pb_service_name pb);
     method_name_ := default "" (pb_method_name pb) |}.

(** [InsertIfNotPresent] of [yb/gutil/map-util.h]: inserts and returns
    [true] when the key is absent; leaves the map alone and returns
    [false] when it is present. *)
Definition InsertIfNotPresent {V : Type} (m : gmap Z V) (key : Z) (value : V)
  : bool * gmap Z V :=
  match m !! key with
  | Some _ => (false, m)
  | None => (true, <[key := value]> m)
  end.

(** [EraseKeyReturnValuePtr]: removes the key and returns what it mapped to. *)
Definition EraseKeyReturnValuePtr {V : Type} (m : gmap Z V) (key : Z)
  : option V * gmap Z V :=
  (m !! key, delete key m).

Inductive ConnectionDirection : Set := CLIENT | SERVER.

(** ** The codec *)

Section YBRpc.

Context {MonoTime MonoDelta : Type} `{!MonoTimeOps MonoTime MonoDelta}.

(** The gflag [rpc_max_message_size], an [int32]; 8 MiB by default. *)
Variable FLAGS_rpc_max_message_size : Z.

(** The reading of the clock taken by the constructor of [InboundCall]
    ([inbound_call.cc], not among the sources). *)
Variable MonoTime_Now : MonoTime.

(** [google::protobuf::MessageLite], the response message, and its
    [ByteSize()] (an [int]). *)
Variable MessageLite : Type.
Variable ByteSize : MessageLite -> Z.

(** [OutboundCall] ([outbound_call.h], not among the sources). *)
Variable OutboundCall : Type.

Record YBInboundCall : Type := {
  request_data_ : list byte;
  header_ : RequestHeader;
  serialized_request_ : Slice;
  remote_method_ : RemoteMethod;
  sidecars_ : list RefCntBuffer;
  response_buf_ : RefCntBuffer;
  time_received : MonoTime
}.

(** [call->call_id()]. *)
Definition call_id (call : YBInboundCall) : Z := rh_call_id (header_ call).

(** [new YBInboundCall(connection, call_processed_listener)]. *)
Definition YBInboundCall_new : YBInboundCall :=
  {| request_data_ := []; header_ := RequestHeader_default;
     serialized_request_ := []; remote_method_ := FromPB RemoteMethodPB_default;
     sidecars_ := []; response_buf_ := []; time_received := MonoTime_Now |}.

(** [serialization::ParseYBMessage(buf, &header, &main_message)]
    ([serialization.cc], not among the sources): the status, and the two
    output parameters after the call, from their values before it. *)
Variable ParseYBMessage :
  Slice -> RequestHeader -> Slice -> Status * RequestHeader * Slice.

(** Modelled from the spec: [connection.h] is not among the sources.  A
    connection has a direction, "[outbound_queue]: ordered sequence of
    serialized call frames awaiting write" and "[calls_awaiting_response]
    (client): mapping call-id -> OutboundCall". *)
Record Connection : Type := {
  direction : ConnectionDirection;
  outbound_queue : list Slice;
  calls_awaiting_response : gmap Z OutboundCall
}.

(** [Connection::HandleCallResponse] ([connection.cc], not among the
    sources). *)
Variable HandleCallResponse : Connection -> Slice -> Status * Connection.

Record YBConnectionContext : Type := {
  calls_being_handled_ : gmap Z YBInboundCall
}.

(** What the codec acts on: the connection context ([this]), the
    connection, and the calls handed to the messenger with
    [QueueInboundCall], oldest first. *)
Record RpcState : Type := {
  context : YBConnectionContext;
  connection : Connection;
  messenger_inbound : list YBInboundCall
}.

(** *** [YBInboundCall::ParseFrom] *)

Definition ParseFrom (call : YBInboundCall) (source : Slice)
  : Status * YBInboundCall :=
  let request_data := source in
  let source := request_data in
  let '(s, header, serialized_request) :=
    ParseYBMessage source (header_ call) (serialized_request_ call) in
  let call :=
    {| request_data_ := request_data; header_ := header;
       serialized_request_ := serialized_request;
       remote_method_ := remote_method_ call; sidecars_ := sidecars_ call;
       response_buf_ := response_buf_ call;
       time_received := time_received call |} in
  if negb (Status.ok s) then (s, call)
  else if negb (has_remote_method header) then
    (Status.Corruption
       "Non-connection context request header must specify remote_method",
     call)
  else if negb (IsInitialized (remote_method header)) then
    (Status.Corruption2 "remote_method in request header is not initialized"
       (InitializationErrorString (remote_method header)),
     call)
  else
    (Status.OK,
     {| request_data_ := request_data_ call; header_ := header_ call;
        serialized_request_ := serialized_request_ call;
        remote_method_ := FromPB (remote_method header);
        sidecars_ := sidecars_ call; response_buf_ := response_buf_ call;
        time_received := time_received call |}).

(** *** [YBConnectionContext::HandleInboundCall] *)

Definition HandleInboundCall (st : RpcState) (call_data : Slice)
  : Status * RpcState :=
  let call := YBInboundCall_new in
  let '(s, call) := ParseFrom call call_data in
  if negb (Status.ok s) then (s, st)
  else
    let id := call_id call in
    let '(inserted, calls) :=
      InsertIfNotPresent (calls_being_handled_ (context st)) id call in
    if negb inserted then
      (Status.NetworkError ("Received duplicate call id: " +:+ pretty (call_id call)),
       st)
    else
      (Status.OK,
       {| context := {| calls_being_handled_ := calls |};
          connection := connection st;
          messenger_inbound := messenger_inbound st ++ [call] |}).

(** *** [YBConnectionContext::EraseCall] *)

Definition EraseCall (ctx : YBConnectionContext) (call : YBInboundCall)
  : YBConnectionContext :=
  let '(_, calls) :=
    EraseKeyReturnValuePtr (calls_being_handled_ ctx) (call_id call) in
  {| calls_being_handled_ := calls |}.

(** *** [YBConnectionContext::HandleCall] *)

Definition HandleCall (st : RpcState) (call_data : Slice) : Status * RpcState :=
  match direction (connection st) with
  | CLIENT =>
      let '(s, conn) := HandleCallResponse (connection st) call_data in
      (s, {| context := context st; connection := conn;
             messenger_inbound := messenger_inbound st |})
  | SERVER => HandleInboundCall st call_data
  end.

(** *** [YBConnectionContext::BufferLimit] and [Idle] *)

Definition BufferLimit : Z := to_size_t FLAGS_rpc_max_message_size.

Definition Idle (ctx : YBConnectionContext) : bool :=
  bool_decide (size (calls_being_handled_ ctx) = 0%nat).

(** *** [YBConnectionContext::ProcessCalls] *)

(** The status of lines 54-58. *)
Definition FrameTooLong (total_length : Z) : Status :=
  Status.NetworkError
    ("The frame had a length of " +:+ pretty total_length +:+
     ", but we only support messages up to " +:+
     pretty FLAGS_rpc_max_message_size +:+ " bytes long.").

(** How the [while] loop is left: by a [return] inside it, or through
    its guard or [break] with [pos] where it then stands. *)
Inductive LoopExit : Type :=
  | Returned (status : Status) (st : RpcState)
  | Fell (pos : Z) (st : RpcState).

(** The loop, [pos] being the offset of the pointer of that name; one
    unit of [fuel] per iteration. *)
Fixpoint ProcessCalls_loop (fuel : nat) (st : RpcState) (slice : Slice)
    (pos : Z) : option LoopExit :=
  match fuel with
  | O => None
  | S fuel =>
      let end_ := slice_size slice in
      if end_ - pos >=? kMsgLengthPrefixLength then
        let data_length := to_size_t (Load32 (drop (Z.to_nat pos) slice)) in
        let total_length := to_size_t (data_length + kMsgLengthPrefixLength) in
        if total_length >? to_size_t FLAGS_rpc_max_message_size then
          Some (Returned (FrameTooLong total_length) st)
        else
          let stop := pos + total_length in
          if stop >? end_ then Some (Fell pos st)
          else
            let pos := pos + kMsgLengthPrefixLength in
            let '(status, st) := HandleCall st (sub_slice slice pos (stop - pos)) in
            if negb (Status.ok status) then Some (Returned status st)
            else ProcessCalls_loop fuel st slice stop
      else Some (Fell pos st)
  end.

(** Every iteration that does not leave the loop moves [pos] forward by
    at least the four bytes of a prefix, so the length of the slice
    bounds the number of iterations. *)
Definition ProcessCalls_fuel (slice : Slice) : nat := S (length slice).

(** [ProcessCalls(connection, slice, consumed)]: the status, [*consumed]
    afterwards (from its value before), and the state afterwards.
    [pos - slice.data()] lies between 0 and [slice.size()]: its
    conversion to [size_t] changes nothing.
    [None] would be a loop that outlives its fuel; [ProcessCalls_total]
    shows there is none. *)
Definition ProcessCalls (st : RpcState) (slice : Slice) (consumed : Z)
  : option (Status * Z * RpcState) :=
  match ProcessCalls_loop (ProcessCalls_fuel slice) st slice 0 with
  | Some (Returned status st) => Some (status, consumed, st)
  | Some (Fell pos st) => Some (Status.OK, pos - 0, st)
  | None => None
  end.

(** *** [YBInboundCall::GetClientDeadline] *)

Definition GetClientDeadline (call : YBInboundCall) : MonoTime :=
  if negb (has_timeout_millis (header_ call))
     || (timeout_millis (header_ call) =? 0)
  then MonoTime_Max
  else
    let deadline := time_received call in
    MonoTime_AddDelta deadline
      (MonoDelta_FromMilliseconds (timeout_millis (header_ call))).

(** *** [YBInboundCall::SerializeResponseBuffer] *)

(** [serialization::SerializeMessage(message, param_buf, additional_size,
    use_cached_size = true, offset, &size)] and
    [serialization::SerializeHeader(header, param_len, &header_buf,
    reserve_for_param, &header_size)] ([serialization.cc], not among the
    sources).  [param_buf] may be [nullptr] ([None]); each returns its
    status, the buffer afterwards and the size it reports. *)
Variable SerializeMessage :
  MessageLite -> option RefCntBuffer -> Z -> Z ->
  Status * option RefCntBuffer * Z.
Variable SerializeHeader :
  ResponseHeader -> Z -> RefCntBuffer -> Z -> Status * RefCntBuffer * Z.

(** The loop over [sidecars_] (lines 196-199): [resp_hdr] and the
    [uint32_t absolute_sidecar_offset] after it. *)
Fixpoint add_sidecars (sidecars : list RefCntBuffer) (resp_hdr : ResponseHeader)
    (absolute_sidecar_offset : Z) : ResponseHeader * Z :=
  match sidecars with
  | [] => (resp_hdr, absolute_sidecar_offset)
  | car :: sidecars =>
      let resp_hdr := add_sidecar_offsets resp_hdr absolute_sidecar_offset in
      let absolute_sidecar_offset :=
        to_uint32 (absolute_sidecar_offset + slice_size car) in
      add_sidecars sidecars resp_hdr absolute_sidecar_offset
  end.

(** Lines 190-201: the response header that is handed to
    [SerializeHeader], with [protobuf_msg_size] and [additional_size]. *)
Definition response_header (call : YBInboundCall) (response : MessageLite)
    (is_success : bool) : ResponseHeader * Z * Z :=
  let protobuf_msg_size := to_uint32 (ByteSize response) in
  let resp_hdr := ResponseHeader_default in
  let resp_hdr := set_call_id resp_hdr (rh_call_id (header_ call)) in
  let resp_hdr := set_is_error resp_hdr (negb is_success) in
  let absolute_sidecar_offset := protobuf_msg_size in
  let '(resp_hdr, absolute_sidecar_offset) :=
    add_sidecars (sidecars_ call) resp_hdr absolute_sidecar_offset in
  let additional_size :=
    to_int32 (to_uint32 (absolute_sidecar_offset - protobuf_msg_size)) in
  (resp_hdr, protobuf_msg_size, additional_size).

Definition set_response_buf (call : YBInboundCall) (buf : RefCntBuffer)
  : YBInboundCall :=
  {| request_data_ := request_data_ call; header_ := header_ call;
     serialized_request_ := serialized_request_ call;
     remote_method_ := remote_method_ call; sidecars_ := sidecars_ call;
     response_buf_ := buf; time_received := time_received call |}.

Definition SerializeResponseBuffer (call : YBInboundCall)
    (response : MessageLite) (is_success : bool) : Status * YBInboundCall :=
  let '(resp_hdr, protobuf_msg_size, additional_size) :=
    response_header call response is_success in
  let message_size := 0 in
  let '(status, _, message_size) :=
    SerializeMessage response None additional_size 0 in
  if negb (Status.ok status) then (status, call)
  else
    let '(status, response_buf, header_size) :=
      SerializeHeader resp_hdr (to_size_t (message_size + additional_size))
        (response_buf_ call) message_size in
    let call := set_response_buf call response_buf in
    if negb (Status.ok status) then (status, call)
    else
      let '(status, response_buf, _) :=
        SerializeMessage response (Some (response_buf_ call)) additional_size
          header_size in
      (status, set_response_buf call (default (response_buf_ call) response_buf)).

(** *** [YBInboundCall::Serialize] *)

(** [None] is the failed [CHECK_GT(response_buf_.size(), 0)], which
    aborts the process. *)
Definition Serialize (call : YBInboundCall) (output : list RefCntBuffer)
  : option (list RefCntBuffer) :=
  if slice_size (response_buf_ call) >? 0 then
    Some (fold_left (fun output car => output ++ [car]) (sidecars_ call)
            (output ++ [response_buf_ call]))
  else None.


(** ** Frames, as the specification speaks of them *)

(** A complete frame: the four bytes of the length prefix followed by
    exactly as many bytes as the prefix declares. *)
Definition complete_frame (f : Slice) : Prop :=
  kMsgLengthPrefixLength <= slice_size f /\
  slice_size f = Load32 f + kMsgLengthPrefixLength.

(** The frame fits [rpc_max_message_size], prefix included. *)
Definition within_limit (f : Slice) : Prop :=
  slice_size f <= FLAGS_rpc_max_message_size.

(** The payload of a complete frame: what follows its prefix. *)
Definition frame_payload (f : Slice) : Slice :=
  drop (Z.to_nat kMsgLengthPrefixLength) f.

(** Handling the payloads one after the other, as long as each call is
    handled successfully; [None] as soon as one is not. *)
Fixpoint HandleCalls (st : RpcState) (payloads : list Slice) : option RpcState :=
  match payloads with
  | [] => Some st
  | p :: payloads =>
      let '(status, st) := HandleCall st p in
      if Status.ok status then HandleCalls st payloads else None
  end.

(** What is left of the buffer behind its complete frames when no
    further frame is complete: fewer than the four bytes of a prefix, or
    a prefix that declares a frame that fits and more bytes than have
    arrived. *)
Definition incomplete_tail (tail : Slice) : Prop :=
  slice_size tail < kMsgLengthPrefixLength \/
  (Load32 tail + kMsgLengthPrefixLength <= FLAGS_rpc_max_message_size /\
   slice_size tail < Load32 tail + kMsgLengthPrefixLength).

(** The prefix at the head of [bytes] declares a frame longer than
    [rpc_max_message_size]; nothing is asked of what follows the prefix. *)
Definition oversized_prefix (bytes : Slice) : Prop :=
  kMsgLengthPrefixLength <= slice_size bytes /\
  Load32 bytes + kMsgLengthPrefixLength > FLAGS_rpc_max_message_size.

(** The two ways in which the loop, standing at [bytes] in state [st1],
    returns an error [status] and leaves the state [st2]: an oversized
    prefix, or a complete frame whose call is not handled successfully. *)
Inductive fails_at (st1 : RpcState) (bytes : Slice) (status : Status)
    (st2 : RpcState) : Prop :=
  | fails_oversized :
      oversized_prefix bytes ->
      status = FrameTooLong (Load32 bytes + kMsgLengthPrefixLength) ->
      st2 = st1 ->
      fails_at st1 bytes status st2
  | fails_call (bad rest : Slice) :
      bytes = bad ++ rest ->
      complete_frame bad -> within_limit bad ->
      HandleCall st1 (frame_payload bad) = (status, st2) ->
      Status.ok status = false ->
      fails_at st1 bytes status st2.

#[global] Instance complete_frame_dec f : Decision (complete_frame f).
Proof. unfold complete_frame. apply _. Defined.

#[global] Instance within_limit_dec f : Decision (within_limit f).
Proof. unfold within_limit. apply _. Defined.

#[global] Instance incomplete_tail_dec tail : Decision (incomplete_tail tail).
Proof. unfold incomplete_tail. apply _. Defined.

#[global] Instance oversized_prefix_dec bytes : Decision (oversized_prefix bytes).
Proof. unfold oversized_prefix. apply _. Defined.

(** The sum of [4 + data_length] over the frames. *)
Definition frames_length (frames : list Slice) : Z :=
  foldr (fun f acc => kMsgLengthPrefixLength + Load32 f + acc) 0 frames.

(** What the specification asks of an idle connection. *)
Definition idle_as_specified (st : RpcState) : Prop :=
  calls_awaiting_response (connection st) = ∅ /\
  calls_being_handled_ (context st) = ∅ /\
  outbound_queue (connection st) = [].

(** The bytes of the sidecars, added up. *)
Definition sidecars_size (sidecars : list RefCntBuffer) : Z :=
  foldr (fun car acc => slice_size car + acc) 0 sidecars.

(** The offsets the specification gives: the [i]-th sidecar starts at
    the size of the body plus the sizes of the sidecars before it. *)
Definition offsets_as_specified (body_size : Z) (sidecars : list RefCntBuffer)
    (offsets : list Z) : Prop :=
  forall i car, sidecars !! i = Some car ->
    offsets !! i = Some (body_size + sidecars_size (take i sidecars)).

(** The offsets that the loop over the sidecars appends, from the value
    [off] that [absolute_sidecar_offset] has when it starts. *)
Fixpoint running_offsets (off : Z) (sidecars : list RefCntBuffer) : list Z :=
  match sidecars with
  | [] => []
  | car :: sidecars =>
      off :: running_offsets (to_uint32 (off + slice_size car)) sidecars
  end.

(** ** Arithmetic and byte lemmas *)

Lemma byte_to_Z_range b : 0 <= byte_to_Z b < 256.
Proof.
  unfold byte_to_Z. pose proof (Byte.to_N_bounded b). lia.
Qed.

Lemma Load32_range p : 0 <= Load32 p < 2 ^ 32.
Proof.
  unfold Load32.
  destruct p as [|b0 [|b1 [|b2 [|b3 p]]]]; try lia.
  pose proof (byte_to_Z_range b0). pose proof (byte_to_Z_range b1).
  pose proof (byte_to_Z_range b2). pose proof (byte_to_Z_range b3).
  split.
  - repeat (apply Z.lor_nonneg; split); try apply Z.shiftl_nonneg; lia.
  - apply Z.bounded_iff_bits_nonneg; [lia| |].
    + repeat (apply Z.lor_nonneg; split); try apply Z.shiftl_nonneg; lia.
    + intros l Hl. rewrite !Z.lor_spec, !Z.shiftl_spec by lia.
      rewrite !orb_false_iff. repeat split.
      all: apply (Z.bounded_iff_bits_nonneg 8); lia.
Qed.

Lemma Load32_app f rest : 4 <= slice_size f -> Load32 (f ++ rest) = Load32 f.
Proof.
  unfold slice_size. destruct f as [|b0 [|b1 [|b2 [|b3 f]]]]; simpl; intros; first [lia | reflexivity].
Qed.

Lemma Z_gtb_false a b : a <= b -> (a >? b) = false.
Proof. intros. rewrite Z.gtb_ltb. apply Z.ltb_ge. lia. Qed.

Lemma Z_gtb_true a b : b < a -> (a >? b) = true.
Proof. intros. rewrite Z.gtb_ltb. apply Z.ltb_lt. lia. Qed.

Lemma Z_geb_true a b : b <= a -> (a >=? b) = true.
Proof. intros. apply Z.geb_le. lia. Qed.

Lemma Z_geb_false a b : a < b -> (a >=? b) = false.
Proof. intros. rewrite Z.geb_leb. apply Z.leb_gt. lia. Qed.

Lemma to_size_t_small z : 0 <= z < 2 ^ 64 -> to_size_t z = z.
Proof. intros. unfold to_size_t. apply Z.mod_small. lia. Qed.

Lemma slice_size_app (a b : Slice) : slice_size (a ++ b) = slice_size a + slice_size b.
Proof. unfold slice_size. rewrite length_app. lia. Qed.

Lemma slice_size_nonneg (a : Slice) : 0 <= slice_size a.
Proof. unfold slice_size. lia. Qed.

Lemma drop_slice_size (pre rest : Slice) :
  drop (Z.to_nat (slice_size pre)) (pre ++ rest) = rest.
Proof. unfold slice_size. rewrite Nat2Z.id. apply drop_app_length. Qed.

(** One iteration of the loop standing at a complete frame that fits. *)
Lemma ProcessCalls_loop_frame fuel st (pre f rest : Slice) :
  int32_range FLAGS_rpc_max_message_size ->
  complete_frame f -> within_limit f ->
  ProcessCalls_loop (S fuel) st (pre ++ f ++ rest) (slice_size pre) =
  (let '(status, st') := HandleCall st (frame_payload f) in
   if negb (Status.ok status) then Some (Returned status st')
   else ProcessCalls_loop fuel st' (pre ++ f ++ rest) (slice_size (pre ++ f))).
Proof.
  intros Hflag [Hf4 Hf] Hlim. unfold within_limit, int32_range in *.
  unfold kMsgLengthPrefixLength in *.
  pose proof (slice_size_nonneg rest) as Hrest.
  cbn [ProcessCalls_loop].
  rewrite !slice_size_app, drop_slice_size, Load32_app by exact Hf4.
  unfold kMsgLengthPrefixLength.
  rewrite Z_geb_true by lia.
  rewrite (to_size_t_small (Load32 f)) by lia.
  rewrite (to_size_t_small (Load32 f + 4)) by lia.
  rewrite (to_size_t_small FLAGS_rpc_max_message_size) by lia.
  rewrite !Z_gtb_false by lia.
  replace (sub_slice (pre ++ f ++ rest) (slice_size pre + 4)
             (slice_size pre + (Load32 f + 4) - (slice_size pre + 4)))
    with (frame_payload f).
  2:{ unfold sub_slice, frame_payload, kMsgLengthPrefixLength, slice_size in *.
      rewrite Z2Nat.inj_add, Nat2Z.id by lia.
      rewrite <- drop_drop, drop_app_length, drop_app_le by lia.
      rewrite take_app_length'; [reflexivity|].
      rewrite length_drop. lia. }
  replace (slice_size pre + (Load32 f + 4)) with (slice_size pre + slice_size f) by lia.
  reflexivity.
Qed.

Lemma complete_frames_length (frames : list Slice) :
  Forall complete_frame frames ->
  (length frames <= length (concat frames))%nat /\
  slice_size (concat frames) = frames_length frames.
Proof.
  induction 1 as [|f frames [Hf4 Hf] _ [IHlen IHsum]]; [split; reflexivity|].
  cbn [concat frames_length foldr length]. fold (frames_length frames).
  rewrite slice_size_app, length_app.
  unfold slice_size, kMsgLengthPrefixLength in *. lia.
Qed.

(** The loop standing at a run of complete frames that fit and whose
    calls are handled successfully: it goes through them and stands
    behind them, in the state the calls have left. *)
Lemma ProcessCalls_loop_frames (frames : list Slice) :
  forall fuel st st' (pre rest : Slice),
  int32_range FLAGS_rpc_max_message_size ->
  Forall complete_frame frames -> Forall within_limit frames ->
  HandleCalls st (frame_payload <$> frames) = Some st' ->
  ProcessCalls_loop (length frames + fuel) st (pre ++ concat frames ++ rest)
    (slice_size pre) =
  ProcessCalls_loop fuel st' (pre ++ concat frames ++ rest)
    (slice_size (pre ++ concat frames)).
Proof.
  induction frames as [|f frames IH]; intros fuel st st' pre rest Hflag Hc Hl Hh.
  - cbn in Hh. injection Hh as <-. cbn [concat length Nat.add].
    rewrite app_nil_r. reflexivity.
  - apply Forall_cons in Hc as [Hf Hc]. apply Forall_cons in Hl as [Hlf Hl].
    cbn [fmap list_fmap HandleCalls] in Hh.
    cbn [concat length Nat.add]. rewrite <- (app_assoc f).
    rewrite ProcessCalls_loop_frame by assumption.
    destruct (HandleCall st (frame_payload f)) as [status st1].
    destruct (Status.ok status); [|discriminate]. cbn [negb].
    rewrite (app_assoc pre f), (IH fuel st1 st' (pre ++ f) rest) by assumption.
    rewrite <- !app_assoc. reflexivity.
Qed.

(** The loop standing before fewer than four bytes: left by its guard. *)
Lemma ProcessCalls_loop_short fuel st (pre tail : Slice) :
  slice_size tail < kMsgLengthPrefixLength ->
  ProcessCalls_loop (S fuel) st (pre ++ tail) (slice_size pre) =
  Some (Fell (slice_size pre) st).
Proof.
  intros Ht. cbn [ProcessCalls_loop]. rewrite slice_size_app.
  rewrite Z_geb_false by lia. reflexivity.
Qed.

(** The loop standing at the prefix of a frame that fits but whose bytes
    are not all there: left by [break]. *)
Lemma ProcessCalls_loop_partial fuel st (pre tail : Slice) :
  int32_range FLAGS_rpc_max_message_size ->
  kMsgLengthPrefixLength <= slice_size tail ->
  Load32 tail + kMsgLengthPrefixLength <= FLAGS_rpc_max_message_size ->
  slice_size tail < Load32 tail + kMsgLengthPrefixLength ->
  ProcessCalls_loop (S fuel) st (pre ++ tail) (slice_size pre) =
  Some (Fell (slice_size pre) st).
Proof.
  unfold int32_range, kMsgLengthPrefixLength. intros Hflag Ht4 Hlim Hpart.
  pose proof (Load32_range tail) as Hr.
  cbn [ProcessCalls_loop]. rewrite slice_size_app, drop_slice_size.
  unfold kMsgLengthPrefixLength.
  rewrite Z_geb_true by lia.
  rewrite (to_size_t_small (Load32 tail)) by lia.
  rewrite (to_size_t_small (Load32 tail + 4)) by lia.
  rewrite (to_size_t_small FLAGS_rpc_max_message_size) by lia.
  rewrite Z_gtb_false by lia. rewrite Z_gtb_true by lia. reflexivity.
Qed.

(** The loop standing at a prefix that declares more than
    [rpc_max_message_size] allows: it returns a NetworkError at once,
    whatever follows the prefix. *)
Lemma ProcessCalls_loop_oversized fuel st (pre tail : Slice) :
  int32_range FLAGS_rpc_max_message_size ->
  0 <= FLAGS_rpc_max_message_size ->
  kMsgLengthPrefixLength <= slice_size tail ->
  Load32 tail + kMsgLengthPrefixLength > FLAGS_rpc_max_message_size ->
  ProcessCalls_loop (S fuel) st (pre ++ tail) (slice_size pre) =
  Some (Returned (FrameTooLong (Load32 tail + kMsgLengthPrefixLength)) st).
Proof.
  unfold int32_range, kMsgLengthPrefixLength. intros Hflag Hpos Ht4 Hbig.
  pose proof (Load32_range tail) as Hr.
  cbn [ProcessCalls_loop]. rewrite slice_size_app, drop_slice_size.
  unfold kMsgLengthPrefixLength.
  rewrite Z_geb_true by lia.
  rewrite (to_size_t_small (Load32 tail)) by lia.
  rewrite (to_size_t_small (Load32 tail + 4)) by lia.
  rewrite (to_size_t_small FLAGS_rpc_max_message_size) by lia.
  rewrite Z_gtb_true by lia. reflexivity.
Qed.

(** The loop ends: with more fuel than bytes from [pos] to the end of
    the slice, it does not run out of fuel. *)
Lemma ProcessCalls_loop_total fuel :
  forall st (slice : Slice) pos,
  0 <= pos <= slice_size slice ->
  slice_size slice - pos < Z.of_nat fuel ->
  is_Some (ProcessCalls_loop fuel st slice pos).
Proof.
  induction fuel as [|fuel IH]; intros st slice pos Hpos Hfuel.
  - lia.
  - cbn [ProcessCalls_loop].
    destruct (slice_size slice - pos >=? kMsgLengthPrefixLength) eqn:Hguard;
      [|eexists; reflexivity].
    pose proof (Load32_range (drop (Z.to_nat pos) slice)) as Hr.
    rewrite (to_size_t_small (Load32 _)) by lia.
    unfold kMsgLengthPrefixLength in *.
    rewrite (to_size_t_small (Load32 _ + 4)) by lia.
    destruct (_ >? to_size_t _); [eexists; reflexivity|].
    destruct (_ >? slice_size slice) eqn:Hstop; [eexists; reflexivity|].
    destruct (HandleCall _ _) as [status st1].
    destruct (negb (Status.ok status)); [eexists; reflexivity|].
    rewrite Z.gtb_ltb in Hstop. apply Z.ltb_ge in Hstop.
    apply IH; lia.
Qed.

Lemma ProcessCalls_total st (slice : Slice) consumed :
  is_Some (ProcessCalls st slice consumed).
Proof.
  unfold ProcessCalls.
  destruct (ProcessCalls_loop_total (ProcessCalls_fuel slice) st slice 0)
    as [[status st'|pos st'] ->]; [|unfold ProcessCalls_fuel, slice_size; lia
                                  |eexists; reflexivity..].
  pose proof (slice_size_nonneg slice). lia.
Qed.

(** ** [ProcessCalls] *)

(** [ProcessCalls] on a buffer that starts with complete frames that fit
    and whose calls are handled successfully is the loop standing behind
    them. *)
Lemma ProcessCalls_skip_frames st st' (frames : list Slice) (rest : Slice) :
  int32_range FLAGS_rpc_max_message_size ->
  Forall complete_frame frames -> Forall within_limit frames ->
  HandleCalls st (frame_payload <$> frames) = Some st' ->
  exists fuel,
    ProcessCalls_loop (ProcessCalls_fuel (concat frames ++ rest)) st
      (concat frames ++ rest) 0 =
    ProcessCalls_loop (S fuel) st' (concat frames ++ rest)
      (slice_size (concat frames)).
Proof.
  intros Hflag Hc Hl Hh.
  destruct (complete_frames_length frames Hc) as [Hlen _].
  exists (length (concat frames ++ rest) - length frames)%nat.
  unfold ProcessCalls_fuel.
  replace (S (length (concat frames ++ rest)))
    with (length frames + S (length (concat frames ++ rest) - length frames))%nat
    by (rewrite length_app; lia).
  apply (ProcessCalls_loop_frames frames _ st st' [] rest); assumption.
Qed.

(** C1: when the loop of [ProcessCalls] stands at a length prefix that
    declares [total_payload_length] with [total_payload_length + 4 >
    rpc_max_message_size], [ProcessCalls] returns a NetworkError, whether
    or not any byte of the frame behind the prefix has arrived ([tail] is
    any four bytes or more).  The loop stands there when the frames
    before it are complete, fit, and their calls are handled
    successfully; the flag is a non-negative [int32]. *)
Theorem ProcessCalls_oversized_frame st st' (frames : list Slice)
    (tail : Slice) consumed :
  int32_range FLAGS_rpc_max_message_size ->
  0 <= FLAGS_rpc_max_message_size ->
  Forall complete_frame frames -> Forall within_limit frames ->
  HandleCalls st (frame_payload <$> frames) = Some st' ->
  kMsgLengthPrefixLength <= slice_size tail ->
  Load32 tail + kMsgLengthPrefixLength > FLAGS_rpc_max_message_size ->
  exists status,
    ProcessCalls st (concat frames ++ tail) consumed =
      Some (status, consumed, st') /\
    Status.IsNetworkError status = true /\
    status = FrameTooLong (Load32 tail + kMsgLengthPrefixLength).
Proof.
  intros Hflag Hpos Hc Hl Hh Ht4 Hbig.
  destruct (ProcessCalls_skip_frames st st' frames tail Hflag Hc Hl Hh)
    as [fuel Hskip].
  exists (FrameTooLong (Load32 tail + kMsgLengthPrefixLength)).
  split; [|split; reflexivity].
  unfold ProcessCalls. rewrite Hskip.
  rewrite ProcessCalls_loop_oversized by assumption. reflexivity.
Qed.

(** C2: on a buffer made of complete frames that fit
    [rpc_max_message_size] and whose calls are all handled successfully,
    followed by an incomplete frame (possibly fewer than four bytes,
    possibly none), [ProcessCalls] returns OK, leaves the state the
    calls have left, and sets [*consumed] to the sum of [4 +
    data_length] over the complete frames; the bytes not consumed are
    those of the incomplete frame. *)
Theorem ProcessCalls_consumes_complete_frames st st' (frames : list Slice)
    (tail : Slice) consumed :
  int32_range FLAGS_rpc_max_message_size ->
  Forall complete_frame frames -> Forall within_limit frames ->
  incomplete_tail tail ->
  HandleCalls st (frame_payload <$> frames) = Some st' ->
  ProcessCalls st (concat frames ++ tail) consumed =
    Some (Status.OK, frames_length frames, st') /\
  drop (Z.to_nat (frames_length frames)) (concat frames ++ tail) = tail.
Proof.
  intros Hflag Hc Hl Ht Hh.
  destruct (complete_frames_length frames Hc) as [_ Hsum].
  split.
  - destruct (ProcessCalls_skip_frames st st' frames tail Hflag Hc Hl Hh)
      as [fuel Hskip].
    unfold ProcessCalls. rewrite Hskip.
    assert (ProcessCalls_loop (S fuel) st' (concat frames ++ tail)
              (slice_size (concat frames)) =
            Some (Fell (slice_size (concat frames)) st')) as ->.
    { destruct (Z_lt_le_dec (slice_size tail) kMsgLengthPrefixLength) as [Hs|Hs].
      - apply ProcessCalls_loop_short; assumption.
      - destruct Ht as [Ht|[Hfit Hpart]]; [lia|].
        apply ProcessCalls_loop_partial; assumption. }
    rewrite Hsum, Z.sub_0_r. reflexivity.
  - rewrite <- Hsum. apply drop_slice_size.
Qed.

(** An error return leaves [*consumed] as it was. *)
Lemma ProcessCalls_error_consumed st (slice : Slice) consumed status consumed' st' :
  ProcessCalls st slice consumed = Some (status, consumed', st') ->
  Status.ok status = false ->
  consumed' = consumed.
Proof.
  unfold ProcessCalls. intros Hrun Hok.
  destruct (ProcessCalls_loop _ st slice 0) as [[s st1|pos st1]|];
    [| |discriminate]; injection Hrun as <- <- <-; [reflexivity|].
  discriminate Hok.
Qed.

(** The loop standing at the failing frame, after [frames]. *)
Lemma ProcessCalls_error_at st st1 st2 (frames : list Slice)
    (bytes : Slice) status consumed :
  int32_range FLAGS_rpc_max_message_size ->
  0 <= FLAGS_rpc_max_message_size ->
  Forall complete_frame frames -> Forall within_limit frames ->
  HandleCalls st (frame_payload <$> frames) = Some st1 ->
  fails_at st1 bytes status st2 ->
  ProcessCalls st (concat frames ++ bytes) consumed =
    Some (status, consumed, st2) /\
  Status.ok status = false.
Proof.
  intros Hflag Hpos Hc Hl Hh Hfail.
  destruct (ProcessCalls_skip_frames st st1 frames bytes Hflag Hc Hl Hh)
    as [fuel Hskip].
  unfold ProcessCalls. rewrite Hskip.
  destruct Hfail as [[Ht4 Hbig] -> ->|bad rest -> Hbad Hfit Hcall Hok].
  - rewrite ProcessCalls_loop_oversized by assumption. split; reflexivity.
  - rewrite ProcessCalls_loop_frame by assumption.
    rewrite Hcall, Hok. split; reflexivity.
Qed.

(** A [return] inside the loop is one of the two errors, behind a run of
    complete frames that fit and whose calls were handled successfully. *)
Lemma ProcessCalls_loop_returned fuel :
  forall st (pre rest : Slice) status st2,
  int32_range FLAGS_rpc_max_message_size ->
  0 <= FLAGS_rpc_max_message_size ->
  ProcessCalls_loop fuel st (pre ++ rest) (slice_size pre) =
    Some (Returned status st2) ->
  exists (frames : list Slice) (bytes : Slice) st1,
    rest = concat frames ++ bytes /\
    Forall complete_frame frames /\ Forall within_limit frames /\
    HandleCalls st (frame_payload <$> frames) = Some st1 /\
    fails_at st1 bytes status st2.
Proof.
  induction fuel as [|fuel IH]; intros st pre rest status st2 Hflag Hpos Hloop;
    [discriminate Hloop|].
  destruct (Z_lt_le_dec (slice_size rest) kMsgLengthPrefixLength) as [Hshort|H4].
  { rewrite ProcessCalls_loop_short in Hloop by assumption. discriminate Hloop. }
  destruct (Z_lt_le_dec FLAGS_rpc_max_message_size
              (Load32 rest + kMsgLengthPrefixLength)) as [Hbig|Hfits].
  { rewrite ProcessCalls_loop_oversized in Hloop by (assumption || lia).
    injection Hloop as <- <-.
    exists [], rest, st.
    split; [reflexivity|]. split; [constructor|]. split; [constructor|].
    split; [reflexivity|].
    apply fails_oversized; [split; [assumption|lia]|reflexivity..]. }
  destruct (Z_lt_le_dec (slice_size rest)
              (Load32 rest + kMsgLengthPrefixLength)) as [Hpart|Hall].
  { rewrite ProcessCalls_loop_partial in Hloop by assumption.
    discriminate Hloop. }
  pose proof (Load32_range rest) as Hr.
  set (n := Z.to_nat (Load32 rest + kMsgLengthPrefixLength)) in *.
  assert (slice_size (take n rest) = Load32 rest + kMsgLengthPrefixLength)
    as Hsize.
  { unfold slice_size in *. rewrite length_take. subst n.
    unfold kMsgLengthPrefixLength in *. lia. }
  assert (complete_frame (take n rest)) as Hbad.
  { split; [unfold kMsgLengthPrefixLength in *; lia|].
    rewrite Hsize. f_equal.
    rewrite <- (Load32_app (take n rest) (drop n rest)), take_drop;
      [reflexivity|].
    unfold kMsgLengthPrefixLength in *. lia. }
  assert (within_limit (take n rest)) as Hfit
    by (unfold within_limit; lia).
  rewrite <- (take_drop n rest) in Hloop.
  rewrite ProcessCalls_loop_frame in Hloop by assumption.
  destruct (HandleCall st (frame_payload (take n rest))) as [status1 st1]
    eqn:Hcall.
  destruct (Status.ok status1) eqn:Hok; cbn [negb] in Hloop.
  - rewrite app_assoc in Hloop.
    destruct (IH _ _ _ _ _ Hflag Hpos Hloop)
      as (frames & bytes & st1' & Hrest & Hc & Hl & Hh & Hfail).
    exists (take n rest :: frames), bytes, st1'.
    split; [|split; [|split; [|split]]].
    + cbn [concat]. rewrite <- app_assoc, <- Hrest. symmetry. apply take_drop.
    + constructor; assumption.
    + constructor; assumption.
    + cbn [fmap list_fmap HandleCalls]. rewrite Hcall, Hok. exact Hh.
    + exact Hfail.
  - injection Hloop as <- <-.
    exists [], rest, st.
    split; [reflexivity|]. split; [constructor|]. split; [constructor|].
    split; [reflexivity|].
    apply (fails_call _ _ _ _ (take n rest) (drop n rest));
      [symmetry; apply take_drop|assumption..].
Qed.

(** C10: whenever [ProcessCalls] returns an error, [*consumed] keeps the
    value it had, and the buffer is made of frames that were complete,
    fitted, and whose calls were handled successfully (the first i-1),
    followed by the frame at which the error arose (the i-th): an
    oversized prefix or a complete frame whose call is not handled
    successfully.  The state that is returned is the one that the calls
    handled before have left ([st1], or what the failing call made of
    it): nothing of them is undone. *)
Theorem ProcessCalls_error_not_atomic st (slice : Slice) consumed status
    consumed' st2 :
  int32_range FLAGS_rpc_max_message_size ->
  0 <= FLAGS_rpc_max_message_size ->
  ProcessCalls st slice consumed = Some (status, consumed', st2) ->
  Status.ok status = false ->
  consumed' = consumed /\
  exists (frames : list Slice) (bytes : Slice) st1,
    slice = concat frames ++ bytes /\
    Forall complete_frame frames /\ Forall within_limit frames /\
    HandleCalls st (frame_payload <$> frames) = Some st1 /\
    fails_at st1 bytes status st2.
Proof.
  intros Hflag Hpos Hrun Hok.
  split; [exact (ProcessCalls_error_consumed _ _ _ _ _ _ Hrun Hok)|].
  unfold ProcessCalls in Hrun.
  destruct (ProcessCalls_loop _ st slice 0) as [[s st'|pos st']|] eqn:Hloop;
    [| |discriminate Hrun]; injection Hrun as <- <- <-; [|discriminate Hok].
  exact (ProcessCalls_loop_returned _ st [] slice s st' Hflag Hpos Hloop).
Qed.

(** Leaving the loop through its guard or [break]: what lies between
    the place where the loop stood and the place where it stands is a
    run of complete frames that fit and whose calls were handled
    successfully, and what follows is an incomplete frame. *)
Lemma ProcessCalls_loop_fell fuel :
  forall st (pre rest : Slice) pos st',
  int32_range FLAGS_rpc_max_message_size ->
  0 <= FLAGS_rpc_max_message_size ->
  ProcessCalls_loop fuel st (pre ++ rest) (slice_size pre) =
    Some (Fell pos st') ->
  exists (frames : list Slice) (tail : Slice),
    rest = concat frames ++ tail /\
    Forall complete_frame frames /\ Forall within_limit frames /\
    incomplete_tail tail /\
    HandleCalls st (frame_payload <$> frames) = Some st' /\
    pos = slice_size pre + frames_length frames.
Proof.
  induction fuel as [|fuel IH]; intros st pre rest pos st' Hflag Hpos Hloop;
    [discriminate Hloop|].
  destruct (Z_lt_le_dec (slice_size rest) kMsgLengthPrefixLength) as [Hshort|H4].
  { rewrite ProcessCalls_loop_short in Hloop by assumption.
    injection Hloop as <- <-. exists [], rest.
    split; [reflexivity|]. split; [constructor|]. split; [constructor|].
    split; [left; assumption|]. split; [reflexivity|]. cbn. lia. }
  destruct (Z_lt_le_dec FLAGS_rpc_max_message_size
              (Load32 rest + kMsgLengthPrefixLength)) as [Hbig|Hfits].
  { rewrite ProcessCalls_loop_oversized in Hloop by (assumption || lia).
    discriminate Hloop. }
  destruct (Z_lt_le_dec (slice_size rest)
              (Load32 rest + kMsgLengthPrefixLength)) as [Hpart|Hall].
  { rewrite ProcessCalls_loop_partial in Hloop by assumption.
    injection Hloop as <- <-. exists [], rest.
    split; [reflexivity|]. split; [constructor|]. split; [constructor|].
    split; [right; split; assumption|]. split; [reflexivity|]. cbn. lia. }
  pose proof (Load32_range rest) as Hr.
  set (n := Z.to_nat (Load32 rest + kMsgLengthPrefixLength)) in *.
  assert (slice_size (take n rest) = Load32 rest + kMsgLengthPrefixLength)
    as Hsize.
  { unfold slice_size in *. rewrite length_take. subst n.
    unfold kMsgLengthPrefixLength in *. lia. }
  assert (Load32 (take n rest) = Load32 rest) as Hload.
  { rewrite <- (Load32_app (take n rest) (drop n rest)), take_drop;
      [reflexivity|].
    unfold kMsgLengthPrefixLength in *. lia. }
  assert (complete_frame (take n rest)) as Hbad.
  { split; [unfold kMsgLengthPrefixLength in *; lia|].
    rewrite Hsize, Hload. reflexivity. }
  assert (within_limit (take n rest)) as Hfit
    by (unfold within_limit; lia).
  rewrite <- (take_drop n rest) in Hloop.
  rewrite ProcessCalls_loop_frame in Hloop by assumption.
  destruct (HandleCall st (frame_payload (take n rest))) as [status1 st1]
    eqn:Hcall.
  destruct (Status.ok status1) eqn:Hok; cbn [negb] in Hloop;
    [|discriminate Hloop].
  rewrite app_assoc in Hloop.
  destruct (IH _ _ _ _ _ Hflag Hpos Hloop)
    as (frames & tail & Hrest & Hc & Hl & Htail & Hh & ->).
  exists (take n rest :: frames), tail.
  split; [|split; [|split; [|split; [|split]]]].
  - cbn [concat]. rewrite <- app_assoc, <- Hrest. symmetry. apply take_drop.
  - constructor; assumption.
  - constructor; assumption.
  - exact Htail.
  - cbn [fmap list_fmap HandleCalls]. rewrite Hcall, Hok. exact Hh.
  - cbn [frames_length foldr]. fold (frames_length frames).
    rewrite slice_size_app, Hsize, Hload. lia.
Qed.

(** X5: every OK return of [ProcessCalls] is of that kind: the buffer
    is a run of complete frames, all handled, and an incomplete frame,
    and [*consumed] is the length of the run. *)
Lemma ProcessCalls_ok_frames st (slice : Slice) consumed status consumed' st' :
  int32_range FLAGS_rpc_max_message_size ->
  0 <= FLAGS_rpc_max_message_size ->
  ProcessCalls st slice consumed = Some (status, consumed', st') ->
  Status.ok status = true ->
  exists (frames : list Slice) (tail : Slice),
    slice = concat frames ++ tail /\
    Forall complete_frame frames /\ Forall within_limit frames /\
    incomplete_tail tail /\
    HandleCalls st (frame_payload <$> frames) = Some st' /\
    consumed' = frames_length frames.
Proof.
  intros Hflag Hpos Hrun Hok. unfold ProcessCalls in Hrun.
  destruct (ProcessCalls_loop _ st slice 0) as [[s st1|pos st1]|] eqn:Hloop;
    [| |discriminate Hrun]; injection Hrun as <- <- <-.
  - destruct (ProcessCalls_loop_returned _ st [] slice s st1 Hflag Hpos Hloop)
      as (frames & bytes & st2 & _ & _ & _ & _ & Hfail).
    destruct Hfail as [_ -> _|bad rest _ _ _ _ Hbad]; [discriminate Hok|].
    congruence.
  - destruct (ProcessCalls_loop_fell _ st [] slice pos st1 Hflag Hpos Hloop)
      as (frames & tail & Hslice & Hc & Hl & Htail & Hh & ->).
    exists frames, tail. repeat (split; [assumption|]).
    unfold slice_size. cbn [length]. lia.
Qed.

(** ** [ParseFrom] and [HandleInboundCall] *)

(** [RETURN_NOT_OK]: a failure of [ParseYBMessage] is the result. *)
Lemma ParseFrom_parse_error call (source : Slice) s hdr req :
  ParseYBMessage source (header_ call) (serialized_request_ call) = (s, hdr, req) ->
  Status.ok s = false ->
  (ParseFrom call source).1 = s.
Proof.
  intros Hparse Hok. unfold ParseFrom. rewrite Hparse, Hok. reflexivity.
Qed.

(** C5: once [ParseYBMessage] has parsed the payload into the header
    [hdr], [ParseFrom] returns a Corruption error when [hdr] has no
    [remote_method] or when its [remote_method] is not initialized, and
    OK otherwise. *)
Theorem ParseFrom_status call (source : Slice) s hdr req :
  ParseYBMessage source (header_ call) (serialized_request_ call) = (s, hdr, req) ->
  Status.ok s = true ->
  (has_remote_method hdr = false \/ IsInitialized (remote_method hdr) = false ->
   Status.IsCorruption (ParseFrom call source).1 = true) /\
  (has_remote_method hdr = true -> IsInitialized (remote_method hdr) = true ->
   (ParseFrom call source).1 = Status.OK).
Proof.
  intros Hparse Hok. unfold ParseFrom. rewrite Hparse, Hok. cbn [negb].
  split.
  - intros [Hno|Huninit].
    + rewrite Hno. reflexivity.
    + destruct (has_remote_method hdr); [rewrite Huninit|]; reflexivity.
  - intros -> ->. reflexivity.
Qed.

(** A call that [ParseFrom] accepts carries the call id of the header
    that [ParseYBMessage] has produced. *)
Lemma ParseFrom_ok_header call (source : Slice) s call' :
  ParseFrom call source = (s, call') -> Status.ok s = true ->
  header_ call' =
    (ParseYBMessage source (header_ call) (serialized_request_ call)).1.2.
Proof.
  unfold ParseFrom.
  destruct (ParseYBMessage _ _ _) as [[s0 hdr] req]. cbn [fst snd].
  destruct (Status.ok s0) eqn:Hs0; cbn [negb].
  2:{ intros [= <- <-]. congruence. }
  destruct (has_remote_method hdr); cbn [negb].
  2:{ intros [= <- <-]. discriminate. }
  destruct (IsInitialized _); cbn [negb].
  2:{ intros [= <- <-]. discriminate. }
  intros [= <- <-] _. reflexivity.
Qed.

(** C3: on a server-direction connection whose [calls_being_handled_]
    maps the call id [k] to a call [first], handling a request that
    [ParseFrom] accepts and whose call id is [k] returns a NetworkError
    and leaves the whole state as it was: nothing is queued at the
    messenger and [k] still maps to [first]. *)
Theorem HandleCall_duplicate_call_id st (call_data : Slice) k first s call :
  direction (connection st) = SERVER ->
  calls_being_handled_ (context st) !! k = Some first ->
  ParseFrom YBInboundCall_new call_data = (s, call) ->
  Status.ok s = true ->
  call_id call = k ->
  Status.IsNetworkError (HandleCall st call_data).1 = true /\
  (HandleCall st call_data).2 = st /\
  messenger_inbound (HandleCall st call_data).2 = messenger_inbound st /\
  calls_being_handled_ (context (HandleCall st call_data).2) !! k = Some first.
Proof.
  intros Hdir Hfirst Hparse Hok Hid.
  assert (HandleCall st call_data =
          (Status.NetworkError ("Received duplicate call id: " +:+ pretty k), st))
    as ->.
  { unfold HandleCall, HandleInboundCall. rewrite Hdir, Hparse, Hok. cbn [negb].
    unfold InsertIfNotPresent. rewrite Hid, Hfirst. reflexivity. }
  cbn [fst snd]. split; [reflexivity|]. split; [reflexivity|].
  split; [reflexivity|assumption].
Qed.

(** A request with a call id that is not being handled is accepted: the
    call enters the map and is queued at the messenger. *)
Lemma HandleCall_fresh_call_id st (call_data : Slice) s call :
  direction (connection st) = SERVER ->
  ParseFrom YBInboundCall_new call_data = (s, call) ->
  Status.ok s = true ->
  calls_being_handled_ (context st) !! call_id call = None ->
  HandleCall st call_data =
    (Status.OK,
     {| context :=
          {| calls_being_handled_ :=
               <[call_id call := call]> (calls_being_handled_ (context st)) |};
        connection := connection st;
        messenger_inbound := messenger_inbound st ++ [call] |}).
Proof.
  intros Hdir Hparse Hok Hfresh.
  unfold HandleCall, HandleInboundCall. rewrite Hdir, Hparse, Hok. cbn [negb].
  unfold InsertIfNotPresent. rewrite Hfresh. reflexivity.
Qed.

(** A server-direction call that is not handled successfully leaves the
    state as it was. *)
Lemma HandleInboundCall_error_state st (call_data : Slice) :
  Status.ok (HandleInboundCall st call_data).1 = false ->
  (HandleInboundCall st call_data).2 = st.
Proof.
  unfold HandleInboundCall.
  destruct (ParseFrom _ _) as [s call].
  destruct (Status.ok s); cbn [negb]; [|reflexivity].
  destruct (InsertIfNotPresent _ _ _) as [[] calls]; cbn [negb fst snd];
    [discriminate|reflexivity].
Qed.

(** ** [Idle] *)

(** C7 (as amended): [YBConnectionContext::Idle] returns true exactly
    when [calls_being_handled_] is empty; it does so in particular when
    both call maps and the outbound queue are empty, but it looks
    neither at [calls_awaiting_response] nor at the outbound queue. *)
Theorem Idle_iff_no_calls_being_handled st :
  (Idle (context st) = true <-> calls_being_handled_ (context st) = ∅) /\
  (idle_as_specified st -> Idle (context st) = true).
Proof.
  assert (Idle (context st) = true <-> calls_being_handled_ (context st) = ∅)
    as Hiff.
  { unfold Idle. rewrite bool_decide_eq_true. apply map_size_empty_iff. }
  split; [exact Hiff|]. intros (_ & Hempty & _). apply Hiff, Hempty.
Qed.

(** ** [GetClientDeadline] *)

(** C9: [GetClientDeadline] returns [MonoTime::Max()] when the request
    header has no [timeout_millis] or a [timeout_millis] of 0, and
    otherwise [time_received] moved forward by [timeout_millis]
    milliseconds. *)
Theorem GetClientDeadline_cases call :
  (has_timeout_millis (header_ call) = false \/
   timeout_millis (header_ call) = 0 ->
   GetClientDeadline call = MonoTime_Max) /\
  (has_timeout_millis (header_ call) = true ->
   timeout_millis (header_ call) <> 0 ->
   GetClientDeadline call =
     MonoTime_AddDelta (time_received call)
       (MonoDelta_FromMilliseconds (timeout_millis (header_ call)))).
Proof.
  unfold GetClientDeadline. split.
  - intros [-> | ->]; [reflexivity|]. rewrite orb_true_r. reflexivity.
  - intros -> Hnz. apply Z.eqb_neq in Hnz. rewrite Hnz. reflexivity.
Qed.

(** ** [SerializeResponseBuffer] and [Serialize] *)

Lemma to_uint32_idemp z : to_uint32 (to_uint32 z) = to_uint32 z.
Proof. unfold to_uint32. apply Z.mod_mod. lia. Qed.

Lemma to_uint32_add_l a b : to_uint32 (to_uint32 a + b) = to_uint32 (a + b).
Proof. unfold to_uint32. apply Zplus_mod_idemp_l. Qed.

Lemma to_uint32_small z : 0 <= z < 2 ^ 32 -> to_uint32 z = z.
Proof. intros. unfold to_uint32. apply Z.mod_small. lia. Qed.

Lemma sidecars_size_nonneg sidecars : 0 <= sidecars_size sidecars.
Proof.
  induction sidecars as [|car sidecars IH]; cbn [sidecars_size foldr]; [lia|].
  fold (sidecars_size sidecars). pose proof (slice_size_nonneg car). lia.
Qed.

Lemma sidecars_size_take i sidecars :
  sidecars_size (take i sidecars) <= sidecars_size sidecars.
Proof.
  revert i. induction sidecars as [|car sidecars IH]; intros [|i];
    cbn [take sidecars_size foldr]; try lia.
  - fold (sidecars_size sidecars). pose proof (sidecars_size_nonneg sidecars).
    pose proof (slice_size_nonneg car). lia.
  - fold (sidecars_size sidecars) (sidecars_size (take i sidecars)).
    specialize (IH i). lia.
Qed.

Lemma add_sidecars_header sidecars :
  forall hdr off,
  resp_call_id (add_sidecars sidecars hdr off).1 = resp_call_id hdr /\
  resp_is_error (add_sidecars sidecars hdr off).1 = resp_is_error hdr /\
  resp_sidecar_offsets (add_sidecars sidecars hdr off).1 =
    resp_sidecar_offsets hdr ++ running_offsets off sidecars.
Proof.
  induction sidecars as [|car sidecars IH]; intros hdr off;
    cbn [add_sidecars running_offsets fst].
  - rewrite app_nil_r. auto.
  - destruct (IH (add_sidecar_offsets hdr off) (to_uint32 (off + slice_size car)))
      as (-> & -> & ->).
    cbn [add_sidecar_offsets resp_call_id resp_is_error resp_sidecar_offsets].
    rewrite <- app_assoc. auto.
Qed.

Lemma running_offsets_lookup sidecars :
  forall off i car,
  to_uint32 off = off -> sidecars !! i = Some car ->
  running_offsets off sidecars !! i =
    Some (to_uint32 (off + sidecars_size (take i sidecars))).
Proof.
  induction sidecars as [|car0 sidecars IH]; intros off i car Hoff Hi;
    [discriminate|].
  destruct i as [|i]; cbn [running_offsets take sidecars_size foldr].
  - cbn. rewrite Z.add_0_r, Hoff. reflexivity.
  - cbn [lookup list_lookup]. cbn in Hi.
    rewrite (IH _ i car (to_uint32_idemp _) Hi), to_uint32_add_l.
    fold (sidecars_size (take i sidecars)). f_equal. f_equal. lia.
Qed.

Lemma running_offsets_length sidecars :
  forall off, length (running_offsets off sidecars) = length sidecars.
Proof.
  induction sidecars as [|car sidecars IH]; intros off; cbn; [|rewrite IH];
    reflexivity.
Qed.

(** The header that [SerializeResponseBuffer] builds. *)
Lemma response_header_fields call response is_success :
  resp_call_id (response_header call response is_success).1.1 =
    rh_call_id (header_ call) /\
  resp_is_error (response_header call response is_success).1.1 =
    negb is_success /\
  resp_sidecar_offsets (response_header call response is_success).1.1 =
    running_offsets (to_uint32 (ByteSize response)) (sidecars_ call).
Proof.
  unfold response_header.
  pose proof (add_sidecars_header (sidecars_ call)
    (set_is_error (set_call_id ResponseHeader_default (rh_call_id (header_ call)))
       (negb is_success))
    (to_uint32 (ByteSize response))) as Hhdr.
  destruct (add_sidecars _ _ _) as [hdr off]. cbn [fst snd] in *.
  exact Hhdr.
Qed.

(** In [uint32_t] arithmetic, the [i]-th offset is the size of the body
    plus the sizes of the sidecars before the [i]-th. *)
Lemma response_header_offsets_mod call response is_success i car :
  sidecars_ call !! i = Some car ->
  resp_sidecar_offsets (response_header call response is_success).1.1 !! i =
    Some (to_uint32 (ByteSize response + sidecars_size (take i (sidecars_ call)))).
Proof.
  intros Hi.
  destruct (response_header_fields call response is_success) as (_ & _ & ->).
  rewrite (running_offsets_lookup _ _ i car (to_uint32_idemp _) Hi).
  rewrite to_uint32_add_l. reflexivity.
Qed.

Lemma push_back_all (sidecars : list RefCntBuffer) :
  forall output,
  fold_left (fun output car => output ++ [car]) sidecars output =
  output ++ sidecars.
Proof.
  induction sidecars as [|car sidecars IH]; intros output; cbn [fold_left].
  - rewrite app_nil_r. reflexivity.
  - rewrite IH, <- app_assoc. reflexivity.
Qed.

(** [Serialize] pushes the response buffer and then the sidecars, in
    their order. *)
Lemma Serialize_order call output :
  slice_size (response_buf_ call) > 0 ->
  Serialize call output = Some (output ++ response_buf_ call :: sidecars_ call).
Proof.
  intros Hbuf. unfold Serialize. rewrite Z_gtb_true by lia.
  rewrite push_back_all, <- app_assoc. reflexivity.
Qed.

(** ** More about the loop of [ProcessCalls] *)

(** The state with which the loop is left. *)
Definition exit_state (r : LoopExit) : RpcState :=
  match r with
  | Returned _ st => st
  | Fell _ st => st
  end.

(** The exit, seen from [d] bytes further to the left. *)
Definition shift_exit (d : Z) (r : LoopExit) : LoopExit :=
  match r with
  | Returned status st => Returned status st
  | Fell pos st => Fell (d + pos) st
  end.

Lemma total_length_range (p : Slice) :
  to_size_t (to_size_t (Load32 p) + kMsgLengthPrefixLength) =
    Load32 p + kMsgLengthPrefixLength /\
  kMsgLengthPrefixLength <= Load32 p + kMsgLengthPrefixLength.
Proof.
  pose proof (Load32_range p) as Hr. unfold kMsgLengthPrefixLength.
  rewrite (to_size_t_small (Load32 p)) by lia.
  rewrite to_size_t_small by lia. lia.
Qed.

Lemma Z_gtb_add_l d a b : (d + a >? d + b) = (a >? b).
Proof.
  rewrite !Z.gtb_ltb.
  destruct (Z.ltb_spec (d + b) (d + a)), (Z.ltb_spec b a); lia || reflexivity.
Qed.

(** What every call keeps, the loop keeps. *)
Lemma ProcessCalls_loop_invariant (P : RpcState -> Prop) fuel :
  (forall st call_data, P st -> P (HandleCall st call_data).2) ->
  forall st (slice : Slice) pos r,
  P st -> ProcessCalls_loop fuel st slice pos = Some r -> P (exit_state r).
Proof.
  intros Hcall. induction fuel as [|fuel IH]; intros st slice pos r HP Hloop;
    [discriminate Hloop|].
  cbn [ProcessCalls_loop] in Hloop.
  destruct (_ >=? _); [|injection Hloop as <-; exact HP].
  destruct (_ >? to_size_t _); [injection Hloop as <-; exact HP|].
  destruct (_ >? slice_size slice); [injection Hloop as <-; exact HP|].
  match type of Hloop with
  | context [HandleCall ?s ?d] =>
      pose proof (Hcall s d HP) as HP'; destruct (HandleCall s d) as [status st1]
  end.
  cbn [snd] in HP'.
  destruct (negb (Status.ok status)); [injection Hloop as <-; exact HP'|].
  exact (IH _ _ _ _ HP' Hloop).
Qed.

(** The loop never moves [pos] backwards nor past the end. *)
Lemma ProcessCalls_loop_bounds fuel :
  forall st (slice : Slice) pos pos' st',
  0 <= pos <= slice_size slice ->
  ProcessCalls_loop fuel st slice pos = Some (Fell pos' st') ->
  pos <= pos' <= slice_size slice.
Proof.
  induction fuel as [|fuel IH]; intros st slice pos pos' st' Hpos Hloop;
    [discriminate Hloop|].
  cbn [ProcessCalls_loop] in Hloop.
  destruct (_ >=? _); [|injection Hloop as <- <-; lia].
  destruct (total_length_range (drop (Z.to_nat pos) slice)) as [Htotal Hfour].
  rewrite Htotal in Hloop.
  destruct (_ >? to_size_t _); [discriminate Hloop|].
  destruct (_ >? slice_size slice) eqn:Hstop; [injection Hloop as <- <-; lia|].
  rewrite Z.gtb_ltb in Hstop. apply Z.ltb_ge in Hstop.
  destruct (HandleCall _ _) as [status st1].
  destruct (negb (Status.ok status)); [discriminate Hloop|].
  unfold kMsgLengthPrefixLength in *.
  match type of Hloop with
  | ProcessCalls_loop _ _ _ ?stop = _ =>
      assert (0 <= stop <= slice_size slice) as Hstop' by lia
  end.
  specialize (IH _ _ _ _ _ Hstop' Hloop). lia.
Qed.

(** More fuel than the loop needs changes nothing. *)
Lemma ProcessCalls_loop_more_fuel fuel :
  forall extra st (slice : Slice) pos r,
  ProcessCalls_loop fuel st slice pos = Some r ->
  ProcessCalls_loop (fuel + extra) st slice pos = Some r.
Proof.
  induction fuel as [|fuel IH]; intros extra st slice pos r Hloop;
    [discriminate Hloop|].
  cbn [ProcessCalls_loop Nat.add] in *.
  destruct (_ >=? _); [|exact Hloop].
  destruct (_ >? to_size_t _); [exact Hloop|].
  destruct (_ >? slice_size slice); [exact Hloop|].
  destruct (HandleCall _ _) as [status st1].
  destruct (negb (Status.ok status)); [exact Hloop|].
  exact (IH _ _ _ _ _ Hloop).
Qed.

(** The loop looks at the slice from [pos] on only: in front of a longer
    slice it does the same, further to the right. *)
Lemma ProcessCalls_loop_shift fuel :
  forall st (pre rest : Slice) pos,
  0 <= pos ->
  ProcessCalls_loop fuel st (pre ++ rest) (slice_size pre + pos) =
  shift_exit (slice_size pre) <$> ProcessCalls_loop fuel st rest pos.
Proof.
  induction fuel as [|fuel IH]; intros st pre rest pos Hpos; [reflexivity|].
  cbn [ProcessCalls_loop].
  pose proof (slice_size_nonneg pre) as Hpre.
  assert (forall p, 0 <= p ->
            drop (Z.to_nat (slice_size pre + p)) (pre ++ rest) =
            drop (Z.to_nat p) rest) as Hdrop.
  { intros p Hp. rewrite Z2Nat.inj_add by lia.
    unfold slice_size. rewrite Nat2Z.id, <- drop_drop, drop_app_length.
    reflexivity. }
  rewrite slice_size_app, Hdrop by assumption.
  replace (slice_size pre + slice_size rest - (slice_size pre + pos))
    with (slice_size rest - pos) by lia.
  destruct (_ >=? _); [|reflexivity].
  destruct (total_length_range (drop (Z.to_nat pos) rest)) as [Htotal Hfour].
  rewrite Htotal.
  destruct (_ >? to_size_t _); [reflexivity|].
  rewrite <- (Z.add_assoc (slice_size pre) pos), Z_gtb_add_l.
  destruct (_ >? slice_size rest); [reflexivity|].
  unfold sub_slice.
  rewrite <- (Z.add_assoc (slice_size pre) pos kMsgLengthPrefixLength).
  rewrite Hdrop by (unfold kMsgLengthPrefixLength; lia).
  replace (slice_size pre + (pos + (Load32 (drop (Z.to_nat pos) rest) +
                                    kMsgLengthPrefixLength)) -
           (slice_size pre + (pos + kMsgLengthPrefixLength)))
    with (pos + (Load32 (drop (Z.to_nat pos) rest) + kMsgLengthPrefixLength) -
          (pos + kMsgLengthPrefixLength)) by lia.
  destruct (HandleCall _ _) as [status st1].
  destruct (negb (Status.ok status)); [reflexivity|].
  apply IH. unfold kMsgLengthPrefixLength in *. lia.
Qed.

(** A [return] inside the loop never carries an OK status. *)
Lemma ProcessCalls_loop_returned_not_ok fuel :
  forall st (slice : Slice) pos status st',
  ProcessCalls_loop fuel st slice pos = Some (Returned status st') ->
  Status.ok status = false.
Proof.
  induction fuel as [|fuel IH]; intros st slice pos status st' Hloop;
    [discriminate Hloop|].
  cbn [ProcessCalls_loop] in Hloop.
  destruct (_ >=? _); [|discriminate Hloop].
  destruct (_ >? to_size_t _); [injection Hloop as <- <-; reflexivity|].
  destruct (_ >? slice_size slice); [discriminate Hloop|].
  destruct (HandleCall _ _) as [status1 st1].
  destruct (Status.ok status1) eqn:Hok; cbn [negb] in Hloop.
  - exact (IH _ _ _ _ _ Hloop).
  - injection Hloop as <- <-. exact Hok.
Qed.

(** Every iteration that does not leave the loop moves [pos] on by four
    bytes or more: a quarter of the bytes left, and one, is fuel enough. *)
Lemma ProcessCalls_loop_quarter fuel :
  forall st (slice : Slice) pos,
  0 <= pos <= slice_size slice ->
  slice_size slice - pos < 4 * Z.of_nat fuel ->
  is_Some (ProcessCalls_loop fuel st slice pos).
Proof.
  induction fuel as [|fuel IH]; intros st slice pos Hpos Hfuel; [lia|].
  cbn [ProcessCalls_loop].
  destruct (_ >=? _) eqn:Hguard; [|eexists; reflexivity].
  destruct (total_length_range (drop (Z.to_nat pos) slice)) as [-> Hfour].
  destruct (_ >? to_size_t _); [eexists; reflexivity|].
  destruct (_ >? slice_size slice) eqn:Hstop; [eexists; reflexivity|].
  destruct (HandleCall _ _) as [status st1].
  destruct (negb (Status.ok status)); [eexists; reflexivity|].
  rewrite Z.gtb_ltb in Hstop. apply Z.ltb_ge in Hstop.
  unfold kMsgLengthPrefixLength in *. apply IH; lia.
Qed.

(** What [ProcessCalls] makes of the exit of its loop. *)
Definition ProcessCalls_result (consumed : Z) (r : LoopExit)
  : Status * Z * RpcState :=
  match r with
  | Returned status st => (status, consumed, st)
  | Fell pos st => (Status.OK, pos - 0, st)
  end.

(** X1: the loop of [ProcessCalls] ends on every buffer, whatever the
    calls do and whatever the flag is: it makes at most a quarter of the
    length of the buffer, and one, iterations, and any number of
    iterations allowed beyond that gives the same exit, which is the
    result of [ProcessCalls]. *)
Theorem ProcessCalls_terminates st (slice : Slice) consumed :
  exists r,
    (forall fuel, slice_size slice < 4 * Z.of_nat fuel ->
       ProcessCalls_loop fuel st slice 0 = Some r) /\
    ProcessCalls st slice consumed = Some (ProcessCalls_result consumed r).
Proof.
  pose proof (slice_size_nonneg slice) as Hsize.
  assert (forall fuel, slice_size slice < 4 * Z.of_nat fuel ->
            is_Some (ProcessCalls_loop fuel st slice 0)) as Hsome.
  { intros fuel Hfuel. apply ProcessCalls_loop_quarter; lia. }
  destruct (Hsome (ProcessCalls_fuel slice)) as [r Hr].
  { unfold ProcessCalls_fuel, slice_size. lia. }
  exists r. split.
  - intros fuel Hfuel. destruct (Hsome fuel Hfuel) as [r' Hr'].
    destruct (Nat.le_ge_cases fuel (ProcessCalls_fuel slice)) as [Hle|Hle].
    + pose proof (ProcessCalls_loop_more_fuel _ (ProcessCalls_fuel slice - fuel)
                    _ _ _ _ Hr') as Hmore.
      replace (fuel + (ProcessCalls_fuel slice - fuel))%nat
        with (ProcessCalls_fuel slice) in Hmore by lia.
      congruence.
    + pose proof (ProcessCalls_loop_more_fuel _ (fuel - ProcessCalls_fuel slice)
                    _ _ _ _ Hr) as Hmore.
      replace (ProcessCalls_fuel slice + (fuel - ProcessCalls_fuel slice))%nat
        with fuel in Hmore by lia.
      exact Hmore.
  - unfold ProcessCalls. rewrite Hr. destruct r; reflexivity.
Qed.

(** X2: when [ProcessCalls] returns OK, the value it gives [*consumed]
    lies between 0 and the size of the buffer, whatever the flag is and
    whatever the calls do: the caller may drop that many bytes. *)
Theorem ProcessCalls_consumed_bound st (slice : Slice) consumed status
    consumed' st' :
  ProcessCalls st slice consumed = Some (status, consumed', st') ->
  Status.ok status = true ->
  0 <= consumed' <= slice_size slice.
Proof.
  unfold ProcessCalls. intros Hrun Hok.
  pose proof (slice_size_nonneg slice) as Hsize.
  destruct (ProcessCalls_loop _ st slice 0) as [[s st1|pos st1]|] eqn:Hloop;
    [| |discriminate Hrun]; injection Hrun as <- <- <-.
  - rewrite (ProcessCalls_loop_returned_not_ok _ _ _ _ _ _ Hloop) in Hok.
    discriminate Hok.
  - pose proof (ProcessCalls_loop_bounds _ _ _ _ _ _ (conj (Z.le_refl 0) Hsize)
                  Hloop).
    lia.
Qed.

(** X3: a buffer that is as large as [BufferLimit()] (itself no smaller
    than a prefix) never leaves [ProcessCalls] waiting for more bytes:
    either an error is returned, or at least one frame is consumed. *)
Theorem ProcessCalls_full_buffer st (slice : Slice) consumed status
    consumed' st' :
  kMsgLengthPrefixLength <= BufferLimit ->
  BufferLimit <= slice_size slice ->
  ProcessCalls st slice consumed = Some (status, consumed', st') ->
  Status.ok status = true ->
  kMsgLengthPrefixLength <= consumed'.
Proof.
  unfold ProcessCalls, BufferLimit. intros Hlimit Hfull Hrun Hok.
  destruct (ProcessCalls_loop _ st slice 0) as [[s st1|pos st1]|] eqn:Hloop;
    [| |discriminate Hrun]; injection Hrun as <- <- <-.
  { rewrite (ProcessCalls_loop_returned_not_ok _ _ _ _ _ _ Hloop) in Hok.
    discriminate Hok. }
  unfold ProcessCalls_fuel in Hloop. cbn [ProcessCalls_loop] in Hloop.
  rewrite Z_geb_true in Hloop by lia.
  destruct (total_length_range (drop (Z.to_nat 0) slice)) as [Htotal Hfour].
  rewrite Htotal in Hloop.
  destruct (_ >? to_size_t _) eqn:Hbig; [discriminate Hloop|].
  rewrite Z.gtb_ltb in Hbig. apply Z.ltb_ge in Hbig.
  rewrite Z_gtb_false in Hloop by lia.
  destruct (HandleCall _ _) as [status1 st2].
  destruct (negb (Status.ok status1)); [discriminate Hloop|].
  match type of Hloop with
  | ProcessCalls_loop _ _ _ ?stop = _ =>
      assert (0 <= stop <= slice_size slice) as Hstop
        by (unfold kMsgLengthPrefixLength in *; lia)
  end.
  pose proof (ProcessCalls_loop_bounds _ _ _ _ _ _ Hstop Hloop). lia.
Qed.

(** X4: frames that are complete, fit and whose calls are handled
    successfully can be processed now or with what arrives later, to the
    same effect: [ProcessCalls] on the frames followed by [rest] does
    what it does on [rest] from the state the frames have left, with
    the length of the frames added to [*consumed] when it returns OK. *)
Theorem ProcessCalls_resume st st' (frames : list Slice) (rest : Slice)
    consumed :
  int32_range FLAGS_rpc_max_message_size ->
  Forall complete_frame frames -> Forall within_limit frames ->
  HandleCalls st (frame_payload <$> frames) = Some st' ->
  ProcessCalls st (concat frames ++ rest) consumed =
  (fun '(status, consumed', st'') =>
     (status,
      if Status.ok status then frames_length frames + consumed' else consumed',
      st'')) <$> ProcessCalls st' rest consumed.
Proof.
  intros Hflag Hc Hl Hh.
  destruct (complete_frames_length frames Hc) as [Hlen Hsum].
  destruct (ProcessCalls_terminates st' rest consumed) as (r & Hr & Hrest).
  rewrite Hrest. unfold ProcessCalls, ProcessCalls_fuel.
  replace (S (length (concat frames ++ rest)))
    with (length frames + S (length (concat frames ++ rest) - length frames))%nat
    by (rewrite length_app; lia).
  rewrite (ProcessCalls_loop_frames frames _ st st' [] rest Hflag Hc Hl Hh).
  cbn [app].
  rewrite <- (Z.add_0_r (slice_size (concat frames))).
  rewrite ProcessCalls_loop_shift by lia.
  rewrite Hr by (unfold slice_size, Slice in *; rewrite length_app; lia).
  destruct r as [status st''|pos st''];
    cbn [fmap option_fmap option_map shift_exit ProcessCalls_result].
  - assert (Status.ok status = false) as ->; [|reflexivity].
    apply (ProcessCalls_loop_returned_not_ok (S (length rest)) st' rest 0 status st'').
    apply Hr. unfold slice_size. lia.
  - change (Status.ok Status.OK) with true. cbn iota.
    rewrite Hsum. do 3 f_equal. lia.
Qed.

(** ** What handling a call does to the state *)

(** The state with another connection context. *)
Definition with_context (st : RpcState) (ctx : YBConnectionContext) : RpcState :=
  {| context := ctx; connection := connection st;
     messenger_inbound := messenger_inbound st |}.

(** What [ParseFrom] has checked of a call that it accepts. *)
Definition call_accepted (call : YBInboundCall) : Prop :=
  has_remote_method (header_ call) = true /\
  IsInitialized (remote_method (header_ call)) = true /\
  remote_method_ call = FromPB (remote_method (header_ call)).

(** Every call being handled is filed under its own call id, and it and
    every call handed to the messenger went through [ParseFrom]. *)
Definition calls_consistent (st : RpcState) : Prop :=
  (forall k call, calls_being_handled_ (context st) !! k = Some call ->
     call_id call = k /\ call_accepted call) /\
  Forall call_accepted (messenger_inbound st).

(** The calls being handled once the calls of [new] have been added,
    each under its call id. *)
Definition add_calls (calls : gmap Z YBInboundCall) (new : list YBInboundCall)
  : gmap Z YBInboundCall :=
  foldl (fun calls call => <[call_id call := call]> calls) calls new.

Lemma ParseFrom_ok_accepted call (source : Slice) s call' :
  ParseFrom call source = (s, call') -> Status.ok s = true ->
  call_accepted call'.
Proof.
  unfold ParseFrom.
  destruct (ParseYBMessage _ _ _) as [[s0 hdr] req].
  destruct (Status.ok s0) eqn:Hs0; cbn [negb].
  2:{ intros [= <- <-]. congruence. }
  destruct (has_remote_method hdr) eqn:Hhas; cbn [negb].
  2:{ intros [= <- <-]. discriminate. }
  destruct (IsInitialized _) eqn:Hinit; cbn [negb].
  2:{ intros [= <- <-]. discriminate. }
  intros [= <- <-] _. repeat split; assumption.
Qed.

(** X6: [HandleInboundCall] accepts a request exactly when [ParseFrom]
    accepts it and its call id is not being handled; a request that is
    not accepted leaves the state as it was, and an accepted one is
    filed under its call id and handed to the messenger, nothing else
    being changed. *)
Theorem HandleInboundCall_accepts_iff st (call_data : Slice) :
  (Status.ok (HandleInboundCall st call_data).1 = true <->
   Status.ok (ParseFrom YBInboundCall_new call_data).1 = true /\
   calls_being_handled_ (context st)
     !! call_id (ParseFrom YBInboundCall_new call_data).2 = None) /\
  (Status.ok (HandleInboundCall st call_data).1 = false ->
   (HandleInboundCall st call_data).2 = st) /\
  (Status.ok (HandleInboundCall st call_data).1 = true ->
   (HandleInboundCall st call_data).2 =
     {| context :=
          {| calls_being_handled_ :=
               <[call_id (ParseFrom YBInboundCall_new call_data).2 :=
                   (ParseFrom YBInboundCall_new call_data).2]>
                 (calls_being_handled_ (context st)) |};
        connection := connection st;
        messenger_inbound :=
          messenger_inbound st ++ [(ParseFrom YBInboundCall_new call_data).2] |}).
Proof.
  unfold HandleInboundCall, InsertIfNotPresent.
  destruct (ParseFrom YBInboundCall_new call_data) as [s call]. cbn [fst snd].
  destruct (Status.ok s) eqn:Hs; cbn [negb fst snd].
  - destruct (calls_being_handled_ (context st) !! call_id call) eqn:Hk;
      cbn [negb fst snd].
    + split; [|split]; [split|..]; try discriminate; try reflexivity.
      intros [_ [=]].
    + split; [|split]; [split|..]; try discriminate; try reflexivity; auto.
  - rewrite Hs. split; [|split]; [split|..]; try discriminate; try reflexivity.
    intros [[=] _].
Qed.

Lemma HandleInboundCall_cases st (call_data : Slice) :
  (HandleInboundCall st call_data).2 = st \/
  exists call,
    call_accepted call /\
    calls_being_handled_ (context st) !! call_id call = None /\
    (HandleInboundCall st call_data).2 =
      {| context :=
           {| calls_being_handled_ :=
                <[call_id call := call]> (calls_being_handled_ (context st)) |};
         connection := connection st;
         messenger_inbound := messenger_inbound st ++ [call] |}.
Proof.
  unfold HandleInboundCall, InsertIfNotPresent.
  destruct (ParseFrom YBInboundCall_new call_data) as [s call] eqn:Hparse.
  destruct (Status.ok s) eqn:Hs; cbn [negb]; [|left; reflexivity].
  destruct (calls_being_handled_ (context st) !! call_id call) eqn:Hk;
    cbn [negb snd]; [left; reflexivity|].
  right. exists call. split; [|split; [assumption|reflexivity]].
  exact (ParseFrom_ok_accepted _ _ _ _ Hparse Hs).
Qed.

(** X7: a call that [HandleInboundCall] has accepted keeps the context
    from being idle, is the last one handed to the messenger, and is
    found under its call id; [EraseCall] of that call gives back the
    context as it was before the call came in. *)
Theorem EraseCall_after_HandleInboundCall st (call_data : Slice) :
  Status.ok (HandleInboundCall st call_data).1 = true ->
  calls_being_handled_ (context (HandleInboundCall st call_data).2)
    !! call_id (ParseFrom YBInboundCall_new call_data).2 =
    Some (ParseFrom YBInboundCall_new call_data).2 /\
  Idle (context (HandleInboundCall st call_data).2) = false /\
  EraseCall (context (HandleInboundCall st call_data).2)
    (ParseFrom YBInboundCall_new call_data).2 = context st.
Proof.
  intros Hok.
  destruct (HandleInboundCall_accepts_iff st call_data) as ([Hiff _] & _ & Hst).
  destruct (Hiff Hok) as [_ Hfresh]. rewrite (Hst Hok). cbn [context].
  split; [apply lookup_insert_eq|]. split.
  - unfold Idle. cbn [calls_being_handled_]. apply bool_decide_eq_false.
    apply map_size_ne_0_lookup_2 with
      (i := call_id (ParseFrom YBInboundCall_new call_data).2).
    rewrite lookup_insert_eq. eauto.
  - unfold EraseCall, EraseKeyReturnValuePtr. cbn [calls_being_handled_].
    rewrite delete_insert_id by exact Hfresh. destruct (context st). reflexivity.
Qed.

(** X8: once [EraseCall] has removed the call with some call id, a
    request with that call id that [ParseFrom] accepts is accepted
    again, whatever was being handled under that id before. *)
Theorem HandleInboundCall_after_EraseCall st (call_data : Slice) erased :
  Status.ok (ParseFrom YBInboundCall_new call_data).1 = true ->
  call_id erased = call_id (ParseFrom YBInboundCall_new call_data).2 ->
  Status.ok
    (HandleInboundCall (with_context st (EraseCall (context st) erased))
       call_data).1 = true.
Proof.
  intros Hparse Hid.
  apply (HandleInboundCall_accepts_iff
           (with_context st (EraseCall (context st) erased)) call_data).
  split; [exact Hparse|].
  unfold with_context, EraseCall, EraseKeyReturnValuePtr.
  cbn [context calls_being_handled_]. rewrite Hid. apply lookup_delete_eq.
Qed.

Lemma add_calls_snoc calls new call :
  add_calls calls (new ++ [call]) =
  <[call_id call := call]> (add_calls calls new).
Proof. unfold add_calls. rewrite foldl_app. reflexivity. Qed.

Lemma add_calls_lookup_None new :
  forall calls k,
  add_calls calls new !! k = None ->
  calls !! k = None /\ k ∉ call_id <$> new.
Proof.
  induction new as [|call new IH] using rev_ind; intros calls k Hk.
  - split; [exact Hk|]. cbn. apply not_elem_of_nil.
  - rewrite add_calls_snoc in Hk. apply lookup_insert_None in Hk as [Hk Hne].
    destruct (IH calls k Hk) as [Hcalls Hnew]. split; [exact Hcalls|].
    rewrite fmap_app. cbn. rewrite elem_of_app, list_elem_of_singleton.
    intros [Hin|Heq]; [exact (Hnew Hin)|congruence].
Qed.

(** What a server-direction connection has gained since [st]: [new] are
    the calls handed to the messenger since. *)
Definition delivered (st st' : RpcState) (new : list YBInboundCall) : Prop :=
  connection st' = connection st /\
  messenger_inbound st' = messenger_inbound st ++ new /\
  calls_being_handled_ (context st') =
    add_calls (calls_being_handled_ (context st)) new /\
  NoDup (call_id <$> new) /\
  Forall (fun call =>
            calls_being_handled_ (context st) !! call_id call = None) new.

Lemma delivered_HandleCall st st1 new (call_data : Slice) :
  direction (connection st) = SERVER ->
  delivered st st1 new ->
  exists new', delivered st (HandleCall st1 call_data).2 new'.
Proof.
  intros Hdir (Hconn & Hqueue & Hcalls & Hdup & Hfresh).
  unfold HandleCall. rewrite Hconn, Hdir.
  destruct (HandleInboundCall_cases st1 call_data)
    as [->|(call & _ & Hnone & ->)].
  - exists new. repeat split; assumption.
  - rewrite Hcalls in Hnone.
    destruct (add_calls_lookup_None _ _ _ Hnone) as [Hold Hnew].
    exists (new ++ [call]). split; [exact Hconn|].
    cbn [messenger_inbound context calls_being_handled_].
    split; [rewrite Hqueue, app_assoc; reflexivity|].
    split; [rewrite Hcalls, add_calls_snoc; reflexivity|].
    split.
    + rewrite fmap_app. apply NoDup_app. split; [exact Hdup|].
      split; [|apply NoDup_singleton].
      intros k Hk Hk'. apply list_elem_of_singleton in Hk'. subst k.
      exact (Hnew Hk).
    + apply Forall_app. split; [exact Hfresh|]. constructor; [exact Hold|constructor].
Qed.

(** X9: on a server-direction connection [ProcessCalls], whether it
    returns OK or an error, leaves the connection alone and only adds:
    the calls it hands to the messenger are appended to those handed
    over before, each of them is filed under its call id, their call ids
    differ from each other and none of them was being handled before. *)
Theorem ProcessCalls_server_effects st (slice : Slice) consumed status
    consumed' st' :
  direction (connection st) = SERVER ->
  ProcessCalls st slice consumed = Some (status, consumed', st') ->
  exists new, delivered st st' new.
Proof.
  intros Hdir Hrun. unfold ProcessCalls in Hrun.
  destruct (ProcessCalls_loop _ st slice 0) as [r|] eqn:Hloop;
    [|discriminate Hrun].
  assert (exists new, delivered st (exit_state r) new) as Hexit.
  { refine (ProcessCalls_loop_invariant
                (fun st1 => exists new, delivered st st1 new) _ _ _ _ _ _ _ Hloop).
    - intros st1 call_data [new Hnew].
      exact (delivered_HandleCall st st1 new call_data Hdir Hnew).
    - exists []. unfold delivered, add_calls. cbn.
      rewrite app_nil_r. repeat split; constructor. }
  destruct r; injection Hrun as <- <- <-; exact Hexit.
Qed.

(** X10: on a client-direction connection, and as long as
    [HandleCallResponse] leaves the direction of the connection alone,
    [ProcessCalls] touches neither the calls being handled nor the
    messenger: responses go to the connection only. *)
Theorem ProcessCalls_client_effects st (slice : Slice) consumed status
    consumed' st' :
  (forall conn call_data,
     direction (HandleCallResponse conn call_data).2 = direction conn) ->
  direction (connection st) = CLIENT ->
  ProcessCalls st slice consumed = Some (status, consumed', st') ->
  context st' = context st /\
  messenger_inbound st' = messenger_inbound st /\
  direction (connection st') = CLIENT.
Proof.
  intros Hkeep Hdir Hrun. unfold ProcessCalls in Hrun.
  destruct (ProcessCalls_loop _ st slice 0) as [r|] eqn:Hloop;
    [|discriminate Hrun].
  assert (context (exit_state r) = context st /\
          messenger_inbound (exit_state r) = messenger_inbound st /\
          direction (connection (exit_state r)) = CLIENT) as Hexit.
  { refine (ProcessCalls_loop_invariant
                (fun st1 => context st1 = context st /\
                            messenger_inbound st1 = messenger_inbound st /\
                            direction (connection st1) = CLIENT) _ _ _ _ _ _ _
                Hloop); [|auto].
    intros st1 call_data (Hctx & Hqueue & Hd). unfold HandleCall. rewrite Hd.
    pose proof (Hkeep (connection st1) call_data) as Hk.
    destruct (HandleCallResponse _ _) as [s conn]. cbn in *.
    repeat split; congruence. }
  destruct r; injection Hrun as <- <- <-; exact Hexit.
Qed.

Lemma calls_consistent_HandleCall st (call_data : Slice) :
  calls_consistent st -> calls_consistent (HandleCall st call_data).2.
Proof.
  intros [Hmap Hqueue]. unfold HandleCall.
  destruct (direction (connection st)).
  - destruct (HandleCallResponse _ _) as [s conn]. split; assumption.
  - destruct (HandleInboundCall_cases st call_data)
      as [->|(call & Hacc & _ & ->)]; [split; assumption|].
    split; cbn [context calls_being_handled_ messenger_inbound].
    + intros k call' Hk. apply lookup_insert_Some in Hk as [[<- <-]|[_ Hk]];
        [split; [reflexivity|exact Hacc]|exact (Hmap _ _ Hk)].
    + apply Forall_app. split; [exact Hqueue|]. constructor; [exact Hacc|constructor].
Qed.

(** X11: if every call being handled is filed under its own call id and
    it and every call handed to the messenger have a [remote_method]
    that is present and initialized, this is still so after
    [ProcessCalls], whatever it returns, and after [EraseCall]: a
    request that [ParseFrom] does not accept never gets into the map or
    to the messenger. *)
Theorem ProcessCalls_calls_consistent st (slice : Slice) consumed status
    consumed' st' erased :
  calls_consistent st ->
  ProcessCalls st slice consumed = Some (status, consumed', st') ->
  calls_consistent st' /\
  calls_consistent (with_context st' (EraseCall (context st') erased)).
Proof.
  intros Hst Hrun. unfold ProcessCalls in Hrun.
  destruct (ProcessCalls_loop _ st slice 0) as [r|] eqn:Hloop;
    [|discriminate Hrun].
  assert (calls_consistent st') as Hst'.
  { pose proof (ProcessCalls_loop_invariant calls_consistent _
                  calls_consistent_HandleCall _ _ _ _ Hst Hloop) as Hexit.
    destruct r; injection Hrun as <- <- <-; exact Hexit. }
  split; [exact Hst'|]. destruct Hst' as [Hmap Hqueue].
  split; [|exact Hqueue].
  unfold with_context, EraseCall, EraseKeyReturnValuePtr.
  cbn [context calls_being_handled_].
  intros k call Hk. apply lookup_delete_Some in Hk as [_ Hk].
  exact (Hmap _ _ Hk).
Qed.

(** ** Sizes and buffers of a response *)

Lemma add_sidecars_offset sidecars :
  forall hdr off,
  to_uint32 off = off ->
  (add_sidecars sidecars hdr off).2 = to_uint32 (off + sidecars_size sidecars).
Proof.
  induction sidecars as [|car sidecars IH]; intros hdr off Hoff;
    cbn [add_sidecars sidecars_size foldr snd].
  - rewrite Z.add_0_r, Hoff. reflexivity.
  - rewrite IH by apply to_uint32_idemp. rewrite to_uint32_add_l.
    fold (sidecars_size sidecars). f_equal. lia.
Qed.

(** In [int] arithmetic [additional_size] is the size of the sidecars,
    whatever the size of the body. *)
Lemma response_header_additional_size_mod call response is_success :
  (response_header call response is_success).2 =
    to_int32 (to_uint32 (sidecars_size (sidecars_ call))).
Proof.
  unfold response_header.
  pose proof (add_sidecars_offset (sidecars_ call)
    (set_is_error (set_call_id ResponseHeader_default (rh_call_id (header_ call)))
       (negb is_success))
    (to_uint32 (ByteSize response)) (to_uint32_idemp _)) as Hoff.
  destruct (add_sidecars _ _ _) as [hdr off]. cbn [fst snd] in *. subst off.
  f_equal. unfold to_uint32.
  rewrite Zminus_mod_idemp_l. f_equal. lia.
Qed.

(** X12: the [additional_size] that [SerializeResponseBuffer] hands to
    the serializers is the number of bytes of all sidecars together,
    whatever the size of the body, as long as the sidecars take fewer
    than 2^31 bytes; and [protobuf_msg_size] is [ByteSize()] as a
    [uint32_t]. *)
Theorem response_header_additional_size call response is_success :
  sidecars_size (sidecars_ call) < 2 ^ 31 ->
  (response_header call response is_success).2 = sidecars_size (sidecars_ call) /\
  (response_header call response is_success).1.2 = to_uint32 (ByteSize response).
Proof.
  intros Hsmall. split.
  - rewrite response_header_additional_size_mod.
    pose proof (sidecars_size_nonneg (sidecars_ call)).
    rewrite to_uint32_small by lia. unfold to_int32.
    rewrite Z.mod_small by lia. lia.
  - unfold response_header. destruct (add_sidecars _ _ _). reflexivity.
Qed.

(** [SerializeResponseBuffer] writes [response_buf_] and nothing else. *)
Lemma SerializeResponseBuffer_frame call response is_success :
  exists buf,
    (SerializeResponseBuffer call response is_success).2 =
      set_response_buf call buf.
Proof.
  unfold SerializeResponseBuffer.
  destruct (response_header _ _ _) as [[hdr size] additional].
  destruct (SerializeMessage response None additional 0) as [[status buf] m].
  destruct (negb (Status.ok status)).
  { exists (response_buf_ call). destruct call; reflexivity. }
  destruct (SerializeHeader _ _ _ _) as [[status' buf'] hsize].
  destruct (negb (Status.ok status')); [eexists; reflexivity|].
  destruct (SerializeMessage _ _ _ _) as [[status'' buf''] m'].
  eexists. cbn [snd]. unfold set_response_buf. cbn. reflexivity.
Qed.

(** X13: whatever [SerializeResponseBuffer] returns, it leaves the
    request header and the sidecars of the call as they were, and if it
    leaves a response buffer that is not empty, [Serialize] then pushes
    that buffer followed by the sidecars, in their order: as many
    buffers behind the response buffer as the response header has
    sidecar offsets. *)
Theorem Serialize_after_SerializeResponseBuffer call response is_success
    output :
  slice_size (response_buf_ (SerializeResponseBuffer call response is_success).2)
    > 0 ->
  header_ (SerializeResponseBuffer call response is_success).2 = header_ call /\
  sidecars_ (SerializeResponseBuffer call response is_success).2 =
    sidecars_ call /\
  Serialize (SerializeResponseBuffer call response is_success).2 output =
    Some (output ++
          response_buf_ (SerializeResponseBuffer call response is_success).2 ::
          sidecars_ call) /\
  length (sidecars_ call) =
    length (resp_sidecar_offsets
              (response_header call response is_success).1.1).
Proof.
  intros Hbuf.
  destruct (SerializeResponseBuffer_frame call response is_success)
    as [buf Hcall'].
  rewrite Hcall' in *. cbn [set_response_buf header_ sidecars_ response_buf_] in *.
  split; [reflexivity|]. split; [reflexivity|]. split.
  - rewrite (Serialize_order (set_response_buf call buf) output Hbuf).
    reflexivity.
  - destruct (response_header_fields call response is_success) as (_ & _ & ->).
    symmetry. apply running_offsets_length.
Qed.

(** ** [DumpPB] *)

(** Modelled from the spec: the messages of [rpc_introspection.proto]
    are not among the sources.  "[dump_running_rpcs(req) -> resp]
    enumerates every connection and every in-flight call with header,
    elapsed microseconds, and optional trace dump". *)
Record DumpRunningRpcsRequestPB : Set := {
  include_traces : bool
}.

Record RpcCallInProgressPB : Set := {
  pb_header : option RequestHeader;
  pb_trace_buffer : option string;
  pb_micros_elapsed : option Z
}.

Definition RpcCallInProgressPB_default : RpcCallInProgressPB :=
  {| pb_header := None; pb_trace_buffer := None; pb_micros_elapsed := None |}.

Record RpcConnectionPB : Set := {
  calls_in_flight : list RpcCallInProgressPB
}.

(** The trace of a call ([trace_], a pointer that may be null) and its
    [DumpToString(include_time_deltas)]; the fine clock, of which the
    [n]-th reading is [MonoTime_NowFine n]; and
    [now.GetDeltaSince(then).ToMicroseconds()].  None of them is among
    the sources. *)
Variable Trace : Type.
Variable trace_ : YBInboundCall -> option Trace.
Variable DumpToString : Trace -> bool -> string.
Variable MonoTime_NowFine : nat -> MonoTime.
Variable MicrosecondsSince : MonoTime -> MonoTime -> Z.

(** [YBInboundCall::DumpPB(req, resp)], [readings] being the number of
    readings of the clock so far. *)
Definition YBInboundCall_DumpPB (call : YBInboundCall)
    (req : DumpRunningRpcsRequestPB) (readings : nat)
    (resp : RpcCallInProgressPB) : RpcCallInProgressPB :=
  let resp :=
    {| pb_header := Some (header_ call);
       pb_trace_buffer := pb_trace_buffer resp;
       pb_micros_elapsed := pb_micros_elapsed resp |} in
  let resp :=
    match trace_ call with
    | Some trace =>
        if include_traces req then
          {| pb_header := pb_header resp;
             pb_trace_buffer := Some (DumpToString trace true);
             pb_micros_elapsed := pb_micros_elapsed resp |}
        else resp
    | None => resp
    end in
  {| pb_header := pb_header resp; pb_trace_buffer := pb_trace_buffer resp;
     pb_micros_elapsed :=
       Some (MicrosecondsSince (MonoTime_NowFine readings)
               (time_received call)) |}.

(** [YBConnectionContext::DumpPB(req, resp)]: every entry of
    [calls_being_handled_] is dumped into a new element of
    [calls_in_flight].  The order in which an [unordered_map] is gone
    through is not specified; that of [map_to_list] stands for it. *)
Definition YBConnectionContext_DumpPB (ctx : YBConnectionContext)
    (req : DumpRunningRpcsRequestPB) (readings : nat) (resp : RpcConnectionPB)
  : RpcConnectionPB * nat :=
  foldl (fun '(resp, readings) (entry : Z * YBInboundCall) =>
           ({| calls_in_flight :=
                 calls_in_flight resp ++
                 [YBInboundCall_DumpPB entry.2 req readings
                    RpcCallInProgressPB_default] |},
            S readings))
    (resp, readings) (map_to_list (calls_being_handled_ ctx)).

Lemma DumpPB_entries (entries : list (Z * YBInboundCall)) req :
  forall readings resp,
  foldl (fun '(resp, readings) (entry : Z * YBInboundCall) =>
           ({| calls_in_flight :=
                 calls_in_flight resp ++
                 [YBInboundCall_DumpPB entry.2 req readings
                    RpcCallInProgressPB_default] |},
            S readings))
    (resp, readings) entries =
  ({| calls_in_flight :=
        calls_in_flight resp ++
        imap (fun i entry =>
                YBInboundCall_DumpPB entry.2 req (readings + i)
                  RpcCallInProgressPB_default) entries |},
   (readings + length entries)%nat).
Proof.
  induction entries as [|entry entries IH]; intros readings resp.
  - cbn. rewrite app_nil_r, Nat.add_0_r. destruct resp; reflexivity.
  - cbn [foldl imap length]. rewrite IH. cbn [calls_in_flight].
    rewrite <- app_assoc, Nat.add_0_r. f_equal; [|lia]. f_equal. f_equal.
    cbn [app]. f_equal. apply imap_ext. intros i x _. cbn. f_equal. lia.
Qed.

(** X14: [YBConnectionContext::DumpPB] adds to [calls_in_flight], behind
    what is there, one element for every call being handled and no
    other: each call being handled has an element with its request
    header, each new element carries the request header of a call being
    handled and the time elapsed since it was received, and a trace only
    if the request asks for traces.  The clock is read once for every
    call. *)
Theorem YBConnectionContext_DumpPB_calls_in_flight ctx req readings resp :
  exists new,
    calls_in_flight (YBConnectionContext_DumpPB ctx req readings resp).1 =
      calls_in_flight resp ++ new /\
    length new = size (calls_being_handled_ ctx) /\
    (YBConnectionContext_DumpPB ctx req readings resp).2 =
      (readings + size (calls_being_handled_ ctx))%nat /\
    (forall k call, calls_being_handled_ ctx !! k = Some call ->
       exists e, e ∈ new /\ pb_header e = Some (header_ call)) /\
    (forall e, e ∈ new ->
       exists k call,
         calls_being_handled_ ctx !! k = Some call /\
         pb_header e = Some (header_ call) /\
         is_Some (pb_micros_elapsed e) /\
         (include_traces req = false -> pb_trace_buffer e = None)).
Proof.
  unfold YBConnectionContext_DumpPB. rewrite DumpPB_entries. cbn [fst snd].
  eexists. split; [reflexivity|].
  rewrite length_imap, length_map_to_list.
  split; [reflexivity|]. split; [reflexivity|]. split.
  - intros k call Hk. apply elem_of_map_to_list in Hk.
    apply list_elem_of_lookup in Hk as [i Hi].
    eexists. split.
    + apply list_elem_of_lookup. exists i. rewrite list_lookup_imap, Hi.
      reflexivity.
    + cbn [snd]. unfold YBInboundCall_DumpPB.
      destruct (trace_ call), (include_traces req); reflexivity.
  - intros e He. apply list_elem_of_lookup in He as [i Hi].
    rewrite list_lookup_imap in Hi.
    destruct (map_to_list (calls_being_handled_ ctx) !! i) as [[k call]|] eqn:Hk;
      [|discriminate Hi].
    injection Hi as <-. exists k, call. split.
    + apply elem_of_map_to_list, list_elem_of_lookup. eauto.
    + cbn [snd]. unfold YBInboundCall_DumpPB.
      split; [destruct (trace_ call), (include_traces req); reflexivity|].
      split; [eexists; reflexivity|].
      intros ->. destruct (trace_ call); reflexivity.
Qed.

End YBRpc.

Arguments direction {OutboundCall} _.
Arguments outbound_queue {OutboundCall} _.
Arguments calls_awaiting_response {OutboundCall} _.
Arguments context {MonoTime OutboundCall} _.
Arguments connection {MonoTime OutboundCall} _.
Arguments messenger_inbound {MonoTime OutboundCall} _.
Arguments idle_as_specified {MonoTime OutboundCall} _.

(** ** The response header, whatever the header serializer *)

Section ResponseHeader.

Context {MonoTime : Type}.
Variable MessageLite : Type.
Variable ByteSize : MessageLite -> Z.
Variable SerializeMessage :
  MessageLite -> option RefCntBuffer -> Z -> Z ->
  Status * option RefCntBuffer * Z.

Local Abbreviation resp_hdr call response is_success :=
  (response_header MessageLite ByteSize call response is_success).1.1.

(** Two header serializers agree on the header [hdr]. *)
Definition agree_on (hdr : ResponseHeader)
    (H H' : ResponseHeader -> Z -> RefCntBuffer -> Z -> Status * RefCntBuffer * Z)
  : Prop :=
  forall param_len buf reserve,
    H hdr param_len buf reserve = H' hdr param_len buf reserve.

(** [SerializeResponseBuffer] hands the header of [response_header], and
    no other, to [SerializeHeader]: two header serializers that agree on
    that header give the same result. *)
Lemma SerializeResponseBuffer_header (call : @YBInboundCall MonoTime)
    response is_success H H' :
  agree_on (resp_hdr call response is_success) H H' ->
  SerializeResponseBuffer MessageLite ByteSize SerializeMessage H
    call response is_success =
  SerializeResponseBuffer MessageLite ByteSize SerializeMessage H'
    call response is_success.
Proof.
  intros Hagree. unfold SerializeResponseBuffer.
  destruct (response_header _ _ _ _ _) as [[hdr size] additional].
  cbn [fst] in Hagree.
  destruct (SerializeMessage response None additional 0) as [[status buf] m].
  destruct (negb (Status.ok status)); [reflexivity|].
  rewrite Hagree. reflexivity.
Qed.

(** C6: the response header that [SerializeResponseBuffer(response,
    is_success)] serializes carries the call id of the request header of
    the call, and its [is_error] is true exactly when [is_success] is
    false. *)
Theorem SerializeResponseBuffer_call_id_is_error (call : @YBInboundCall MonoTime)
    response is_success :
  resp_call_id (resp_hdr call response is_success) = rh_call_id (header_ call) /\
  (resp_is_error (resp_hdr call response is_success) = true <->
   is_success = false) /\
  (forall H H', agree_on (resp_hdr call response is_success) H H' ->
     SerializeResponseBuffer MessageLite ByteSize SerializeMessage H
       call response is_success =
     SerializeResponseBuffer MessageLite ByteSize SerializeMessage H'
       call response is_success).
Proof.
  destruct (response_header_fields MessageLite ByteSize call response is_success)
    as (Hid & Herr & _).
  split; [exact Hid|]. split.
  - rewrite Herr. destruct is_success; cbn; split; congruence.
  - intros H H'. apply SerializeResponseBuffer_header.
Qed.

(** C4 (as amended): the response header that [SerializeResponseBuffer]
    serializes records one offset per sidecar, the [i]-th being the size
    of the body plus the sizes of the sidecars before the [i]-th, in
    [uint32_t] arithmetic (modulo 2^32); when the body and the sidecars
    together take fewer than 2^32 bytes these are the offsets of the
    specification, measured from the start of the body.  [Serialize]
    pushes the response buffer and then the sidecars in their order. *)
Theorem SerializeResponseBuffer_sidecar_offsets (call : @YBInboundCall MonoTime)
    response is_success :
  (forall i car, sidecars_ call !! i = Some car ->
     resp_sidecar_offsets (resp_hdr call response is_success) !! i =
       Some (to_uint32
               (ByteSize response + sidecars_size (take i (sidecars_ call))))) /\
  length (resp_sidecar_offsets (resp_hdr call response is_success)) =
    length (sidecars_ call) /\
  (0 <= ByteSize response ->
   ByteSize response + sidecars_size (sidecars_ call) < 2 ^ 32 ->
   offsets_as_specified (ByteSize response) (sidecars_ call)
     (resp_sidecar_offsets (resp_hdr call response is_success))) /\
  (forall output, slice_size (response_buf_ call) > 0 ->
     Serialize call output =
       Some (output ++ response_buf_ call :: sidecars_ call)) /\
  (forall H H', agree_on (resp_hdr call response is_success) H H' ->
     SerializeResponseBuffer MessageLite ByteSize SerializeMessage H
       call response is_success =
     SerializeResponseBuffer MessageLite ByteSize SerializeMessage H'
       call response is_success).
Proof.
  split; [|split; [|split; [|split]]].
  - intros i car Hi. apply (response_header_offsets_mod _ _ _ _ _ _ car Hi).
  - destruct (response_header_fields MessageLite ByteSize call response is_success)
      as (_ & _ & ->).
    apply running_offsets_length.
  - intros Hbody Hfits i car Hi.
    rewrite (response_header_offsets_mod _ _ _ _ _ _ car Hi).
    pose proof (sidecars_size_nonneg (take i (sidecars_ call))).
    pose proof (sidecars_size_take i (sidecars_ call)).
    rewrite to_uint32_small by lia. reflexivity.
  - intros output. apply Serialize_order.
  - intros H H'. apply SerializeResponseBuffer_header.
Qed.

End ResponseHeader.

(** ** A sample instance

    A clock in nanoseconds, the default [rpc_max_message_size], and a
    small stand-in for [ParseYBMessage]: the first byte of a payload is
    the call id, the second says what the header holds, the rest is the
    request. *)

Module Sample.

#[local] Instance nanoseconds : MonoTimeOps Z Z := {|
  MonoTime_Max := 2 ^ 63 - 1;
  MonoDelta_FromMilliseconds ms := ms * 1000000;
  MonoTime_AddDelta t d := t + d
|}.
Definition rpc_max_message_size : Z := 8 * 1024 * 1024.
Definition ParseYBMessage (buf : Slice) (header : RequestHeader) (main : Slice)
  : Status * RequestHeader * Slice :=
  match buf with
  | id :: tag :: body =>
      (Status.OK,
       {| rh_call_id := byte_to_Z id;
          rh_remote_method :=
            match tag with
            | x00 => None
            | x01 => Some {| pb_service_name := Some "svc"; pb_method_name := None |}
            | _ => Some {| pb_service_name := Some "svc"; pb_method_name := Some "m" |}
            end;
          rh_timeout_millis :=
            match tag with x03 => Some 1500 | x04 => Some 0 | _ => None end |},
       body)
  | _ => (Status.Corruption "Invalid packet: not enough bytes", header, main)
  end.
Definition HandleCallResponse (conn : Connection unit) (call_data : Slice)
  : Status * Connection unit := (Status.OK, conn).
Definition server : Connection unit :=
  {| direction := SERVER; outbound_queue := [];
     calls_awaiting_response := ∅ |}.
Definition st0 : @RpcState Z unit :=
  {| context := {| calls_being_handled_ := ∅ |}; connection := server;
     messenger_inbound := [] |}.
Definition frame42 : Slice := [x00; x00; x00; x03; x2a; x02; x07].
Definition call42 : @YBInboundCall Z :=
  (ParseFrom ParseYBMessage (YBInboundCall_new 0) [x2a; x02; x07]).2.
Definition st1 : @RpcState Z unit :=
  {| context := {| calls_being_handled_ := {[ 42 := call42 ]} |};
     connection := server; messenger_inbound := [call42] |}.

Definition oversized : Slice := [x00; x80; x00; x01].

Definition st_awaiting : @RpcState Z unit :=
  {| context := {| calls_being_handled_ := ∅ |};
     connection :=
       {| direction := CLIENT; outbound_queue := [];
          calls_awaiting_response := {[ 7 := tt ]} |};
     messenger_inbound := [] |}.

Ltac frames_ok :=
  repeat match goal with
    | |- Forall _ [] => apply Forall_nil
    | |- Forall _ (_ :: _) => apply Forall_cons; split
    | |- _ /\ _ => split
    | |- complete_frame _ => unfold complete_frame
    | |- within_limit _ _ => unfold within_limit
    | |- oversized_prefix _ _ => unfold oversized_prefix
    | |- int32_range _ => unfold int32_range
    end;
  vm_compute; first [reflexivity | discriminate].

End Sample.

(** A frame with the prefix [0x00800001] (8 MiB + 1) behind a complete
    frame: NetworkError, although only the prefix has arrived. *)
Lemma ProcessCalls_oversized_frame_witness :
  exists status,
    ProcessCalls Sample.rpc_max_message_size 0 unit Sample.ParseYBMessage
      Sample.HandleCallResponse Sample.st0
      (concat [Sample.frame42] ++ Sample.oversized) 77 =
      Some (status, 77, Sample.st1) /\
    Status.IsNetworkError status = true /\
    status = FrameTooLong Sample.rpc_max_message_size
               (Load32 Sample.oversized + kMsgLengthPrefixLength).
Proof.
  apply (ProcessCalls_oversized_frame Sample.rpc_max_message_size 0 unit
           Sample.ParseYBMessage Sample.HandleCallResponse
           Sample.st0 Sample.st1 [Sample.frame42] Sample.oversized 77);
    Sample.frames_ok.
Defined.

(** A complete frame followed by two bytes of the next prefix: OK, seven
    bytes consumed, two left. *)
Lemma ProcessCalls_consumes_complete_frames_witness :
  ProcessCalls Sample.rpc_max_message_size 0 unit Sample.ParseYBMessage
    Sample.HandleCallResponse Sample.st0
    (concat [Sample.frame42] ++ [x00; x00]) 77 =
    Some (Status.OK, frames_length [Sample.frame42], Sample.st1) /\
  drop (Z.to_nat (frames_length [Sample.frame42]))
    (concat [Sample.frame42] ++ [x00; x00]) = [x00; x00].
Proof.
  apply (ProcessCalls_consumes_complete_frames Sample.rpc_max_message_size 0
           unit Sample.ParseYBMessage Sample.HandleCallResponse
           Sample.st0 Sample.st1 [Sample.frame42] [x00; x00] 77);
    try Sample.frames_ok.
  left. Sample.frames_ok.
Defined.

(** Two requests with call id 42 on one server connection: the second is
    a NetworkError, and the first stays in the map and at the
    messenger. *)
Lemma HandleCall_duplicate_call_id_witness :
  Status.IsNetworkError
    (HandleCall 0 unit Sample.ParseYBMessage Sample.HandleCallResponse
       Sample.st1 [x2a; x02; x09]).1 = true /\
  (HandleCall 0 unit Sample.ParseYBMessage Sample.HandleCallResponse
     Sample.st1 [x2a; x02; x09]).2 = Sample.st1 /\
  messenger_inbound
    (HandleCall 0 unit Sample.ParseYBMessage Sample.HandleCallResponse
       Sample.st1 [x2a; x02; x09]).2 = messenger_inbound Sample.st1 /\
  calls_being_handled_
    (context
       (HandleCall 0 unit Sample.ParseYBMessage Sample.HandleCallResponse
          Sample.st1 [x2a; x02; x09]).2) !! 42 = Some Sample.call42.
Proof.
  apply (HandleCall_duplicate_call_id 0 unit Sample.ParseYBMessage
           Sample.HandleCallResponse Sample.st1 [x2a; x02; x09] 42
           Sample.call42
           (ParseFrom Sample.ParseYBMessage (YBInboundCall_new 0) [x2a; x02; x09]).1
           (ParseFrom Sample.ParseYBMessage (YBInboundCall_new 0) [x2a; x02; x09]).2);
    vm_compute; reflexivity.
Defined.

(** A header without [remote_method]: Corruption. *)
Lemma ParseFrom_status_witness :
  (has_remote_method
     (Sample.ParseYBMessage [x2a; x00] RequestHeader_default []).1.2 = false \/
   IsInitialized
     (remote_method
        (Sample.ParseYBMessage [x2a; x00] RequestHeader_default []).1.2) = false ->
   Status.IsCorruption
     (ParseFrom Sample.ParseYBMessage (YBInboundCall_new 0) [x2a; x00]).1 = true) /\
  (has_remote_method
     (Sample.ParseYBMessage [x2a; x00] RequestHeader_default []).1.2 = true ->
   IsInitialized
     (remote_method
        (Sample.ParseYBMessage [x2a; x00] RequestHeader_default []).1.2) = true ->
   (ParseFrom Sample.ParseYBMessage (YBInboundCall_new 0) [x2a; x00]).1 =
     Status.OK).
Proof.
  apply (ParseFrom_status Sample.ParseYBMessage (YBInboundCall_new 0)
           [x2a; x00] Status.OK _ []); reflexivity.
Defined.

(** A complete frame and then the same frame again: the second call is
    a duplicate; [*consumed] keeps its 77 and the first call stays
    delivered. *)
Lemma ProcessCalls_error_at_sample :
  ProcessCalls Sample.rpc_max_message_size 0 unit Sample.ParseYBMessage
    Sample.HandleCallResponse Sample.st0
    (concat [Sample.frame42] ++ Sample.frame42 ++ [x00]) 77 =
    Some (Status.NetworkError "Received duplicate call id: 42", 77, Sample.st1) /\
  Status.ok (Status.NetworkError "Received duplicate call id: 42") = false.
Proof.
  apply (ProcessCalls_error_at Sample.rpc_max_message_size 0 unit
           Sample.ParseYBMessage Sample.HandleCallResponse
           Sample.st0 Sample.st1 Sample.st1 [Sample.frame42]
           (Sample.frame42 ++ [x00]) _ 77);
    try Sample.frames_ok.
  apply (fails_call _ _ _ _ _ _ _ _ _ Sample.frame42 [x00]);
    Sample.frames_ok.
Qed.

Lemma ProcessCalls_error_not_atomic_witness :
  77 = 77 /\
  exists (frames : list Slice) (bytes : Slice) st1,
    Sample.frame42 ++ Sample.frame42 ++ [x00] = concat frames ++ bytes /\
    Forall complete_frame frames /\
    Forall (within_limit Sample.rpc_max_message_size) frames /\
    HandleCalls 0 unit Sample.ParseYBMessage Sample.HandleCallResponse
      Sample.st0 (frame_payload <$> frames) = Some st1 /\
    fails_at Sample.rpc_max_message_size 0 unit Sample.ParseYBMessage
      Sample.HandleCallResponse st1 bytes
      (Status.NetworkError "Received duplicate call id: 42") Sample.st1.
Proof.
  apply (ProcessCalls_error_not_atomic Sample.rpc_max_message_size 0 unit
           Sample.ParseYBMessage Sample.HandleCallResponse Sample.st0
           (Sample.frame42 ++ Sample.frame42 ++ [x00]) 77
           (Status.NetworkError "Received duplicate call id: 42") 77 Sample.st1);
    Sample.frames_ok.
Defined.

(** With a negative [rpc_max_message_size] the comparison of line 53,
    made in [size_t], never holds: the same bytes are taken for a frame
    that has not fully arrived.  Hence the non-negative flag in the
    statements above. *)
Example ProcessCalls_negative_flag :
  ProcessCalls (-1) 0 unit Sample.ParseYBMessage Sample.HandleCallResponse
    Sample.st0 Sample.oversized 77 = Some (Status.OK, 0, Sample.st0).
Proof. vm_compute. reflexivity. Qed.

(** ** Where the code departs from the specification *)

(** A connection context with no call being handled, on a connection
    that still awaits the response to call 7: [Idle] says true, the
    specification's [is_idle] false. *)
Lemma Idle_ignores_calls_awaiting_response :
  ~ (Idle (context Sample.st_awaiting) = true <->
     idle_as_specified Sample.st_awaiting).
Proof.
  intros [Hidle _].
  destruct (Hidle eq_refl) as (Hawaiting & _).
  apply (f_equal (fun m => m !! 7)) in Hawaiting.
  vm_compute in Hawaiting. discriminate Hawaiting.
Qed.

(** A sidecar of 2^32 bytes. *)
Definition huge_sidecar : RefCntBuffer := replicate (Z.to_nat 4294967296) x00.

Lemma huge_sidecar_size : slice_size huge_sidecar = 4294967296.
Proof.
  unfold slice_size, huge_sidecar. rewrite length_replicate.
  apply Z2Nat.id. lia.
Qed.

(** A call with two sidecars, the first being [car]. *)
Definition call_with_sidecars (car : RefCntBuffer) : @YBInboundCall Z :=
  {| request_data_ := []; header_ := RequestHeader_default;
     serialized_request_ := []; remote_method_ := FromPB RemoteMethodPB_default;
     sidecars_ := [car; [x01]]; response_buf_ := [];
     time_received := 0 |}.

Lemma sidecar_offset_wraps_at (car : RefCntBuffer) :
  slice_size car = 4294967296 ->
  ~ offsets_as_specified (slice_size (replicate 10 x00))
      (sidecars_ (call_with_sidecars car))
      (resp_sidecar_offsets
         (response_header Slice slice_size (call_with_sidecars car)
            (replicate 10 x00) true).1.1).
Proof.
  intros Hsize Hspec. specialize (Hspec 1%nat [x01] eq_refl).
  rewrite (response_header_offsets_mod Slice slice_size (call_with_sidecars car)
             (replicate 10 x00) true 1 [x01] eq_refl) in Hspec.
  cbn [sidecars_ call_with_sidecars take sidecars_size foldr] in Hspec.
  rewrite Hsize in Hspec.
  vm_compute in Hspec. discriminate Hspec.
Qed.

(** With a body of 10 bytes and a first sidecar of 2^32 bytes, the
    second sidecar starts 10 + 2^32 bytes into the body; the [uint32_t]
    offset that is recorded for it is 10. *)
Lemma sidecar_offset_wraps :
  ~ offsets_as_specified (slice_size (replicate 10 x00))
      (sidecars_ (call_with_sidecars huge_sidecar))
      (resp_sidecar_offsets
         (response_header Slice slice_size (call_with_sidecars huge_sidecar)
            (replicate 10 x00) true).1.1).
Proof. exact (sidecar_offset_wraps_at huge_sidecar huge_sidecar_size). Qed.

(** The offsets that are recorded for that call. *)
Lemma sidecar_offsets_recorded :
  resp_sidecar_offsets
    (response_header Slice slice_size (call_with_sidecars huge_sidecar)
       (replicate 10 x00) true).1.1 = [10; 10].
Proof.
  destruct (response_header_fields Slice slice_size
              (call_with_sidecars huge_sidecar) (replicate 10 x00) true)
    as (_ & _ & ->).
  cbn [sidecars_ call_with_sidecars running_offsets].
  rewrite huge_sidecar_size. reflexivity.
Qed.

(** A request received at 5 s with a timeout of 1500 ms is due at 6.5 s;
    without a timeout, or with a timeout of 0, there is no deadline. *)
Example GetClientDeadline_sample :
  let deadline := @GetClientDeadline Z Z Sample.nanoseconds in
  let received := YBInboundCall_new 5000000000 in
  deadline (ParseFrom Sample.ParseYBMessage received [x2a; x03]).2 = 6500000000 /\
  deadline (ParseFrom Sample.ParseYBMessage received [x2a; x02]).2 = 2 ^ 63 - 1 /\
  deadline (ParseFrom Sample.ParseYBMessage received [x2a; x04]).2 = 2 ^ 63 - 1.
Proof. repeat split. Qed.


(** ** The remaining theorems at the sample instance *)

Module ResponseSample.

(** A stand-in for the serializers: the message is its own encoding and
    the header takes one byte per field and offset. *)
Definition SerializeMessage (message : Slice) (param_buf : option RefCntBuffer)
    (additional_size offset : Z) : Status * option RefCntBuffer * Z :=
  (Status.OK, (fun buf => take (Z.to_nat offset) buf ++ message) <$> param_buf,
   slice_size message).

Definition call : @YBInboundCall Z :=
  {| request_data_ := [x2a; x02; x07]; header_ := header_ Sample.call42;
     serialized_request_ := [x07]; remote_method_ := remote_method_ Sample.call42;
     sidecars_ := [[x01; x02]; [x03]]; response_buf_ := [x00];
     time_received := 0 |}.

Definition response : Slice := replicate 10 x00.

End ResponseSample.

(** A body of 10 bytes and sidecars of 2 and 1 bytes: offsets 10 and 12. *)
Lemma SerializeResponseBuffer_sidecar_offsets_witness :
  offsets_as_specified (slice_size ResponseSample.response)
    (sidecars_ ResponseSample.call)
    (resp_sidecar_offsets
       (response_header Slice slice_size ResponseSample.call
          ResponseSample.response true).1.1) /\
  resp_sidecar_offsets
    (response_header Slice slice_size ResponseSample.call
       ResponseSample.response true).1.1 = [10; 12].
Proof.
  split; [|reflexivity].
  apply (SerializeResponseBuffer_sidecar_offsets Slice slice_size
           ResponseSample.SerializeMessage ResponseSample.call
           ResponseSample.response true);
    vm_compute; first [reflexivity | discriminate].
Defined.

(** The response to call 42, a failure: header with call id 42 and
    [is_error]. *)
Lemma SerializeResponseBuffer_call_id_is_error_witness :
  resp_call_id
    (response_header Slice slice_size ResponseSample.call
       ResponseSample.response false).1.1 = 42 /\
  resp_is_error
    (response_header Slice slice_size ResponseSample.call
       ResponseSample.response false).1.1 = true.
Proof.
  destruct (SerializeResponseBuffer_call_id_is_error Slice slice_size
              ResponseSample.SerializeMessage ResponseSample.call
              ResponseSample.response false) as (Hid & Herr & _).
  split; [exact Hid|]. apply Herr. reflexivity.
Defined.

(** A server connection with nothing in flight is idle. *)
Lemma Idle_iff_no_calls_being_handled_witness :
  Idle (context Sample.st0) = true.
Proof.
  apply (Idle_iff_no_calls_being_handled unit Sample.st0).
  repeat split.
Defined.

(** Received at 5 s with a timeout of 1500 ms: due at 6.5 s. *)
Lemma GetClientDeadline_cases_witness :
  @GetClientDeadline Z Z Sample.nanoseconds
    (ParseFrom Sample.ParseYBMessage (YBInboundCall_new 5000000000)
       [x2a; x03]).2 = 6500000000.
Proof.
  apply (proj2 (@GetClientDeadline_cases Z Z Sample.nanoseconds
                  (ParseFrom Sample.ParseYBMessage
                     (YBInboundCall_new 5000000000) [x2a; x03]).2));
    [reflexivity|discriminate].
Defined.

(** ** The further theorems at the sample instance *)

Module MoreSamples.

(** A client-direction connection that awaits nothing. *)
Definition client : @RpcState Z unit :=
  {| context := {| calls_being_handled_ := ∅ |};
     connection :=
       {| direction := CLIENT; outbound_queue := [];
          calls_awaiting_response := ∅ |};
     messenger_inbound := [] |}.

(** A stand-in for [SerializeHeader]: a header of one byte, in a buffer
    with room for the message. *)
Definition SerializeHeader (header : ResponseHeader) (param_len : Z)
    (header_buf : RefCntBuffer) (reserve_for_param : Z)
  : Status * RefCntBuffer * Z :=
  (Status.OK, x01 :: replicate (Z.to_nat reserve_for_param) x00, 1).

Definition duplicate : Status :=
  Status.NetworkError "Received duplicate call id: 42".

End MoreSamples.

(** Seven bytes of a frame and two of the next: seven consumed of nine. *)
Lemma ProcessCalls_consumed_bound_witness :
  0 <= 7 <= slice_size (Sample.frame42 ++ [x00; x00]).
Proof.
  apply (ProcessCalls_consumed_bound Sample.rpc_max_message_size 0 unit
           Sample.ParseYBMessage Sample.HandleCallResponse Sample.st0
           (Sample.frame42 ++ [x00; x00]) 77 Status.OK 7 Sample.st1);
    Sample.frames_ok.
Defined.

(** With a limit of seven bytes a buffer of seven bytes is full: its
    frame is consumed. *)
Lemma ProcessCalls_full_buffer_witness : kMsgLengthPrefixLength <= 7.
Proof.
  apply (ProcessCalls_full_buffer 7 0 unit Sample.ParseYBMessage
           Sample.HandleCallResponse Sample.st0 Sample.frame42 77
           Status.OK 7 Sample.st1);
    Sample.frames_ok.
Defined.

(** The frame now and two bytes later, or all nine bytes at once. *)
Lemma ProcessCalls_resume_witness :
  ProcessCalls Sample.rpc_max_message_size 0 unit Sample.ParseYBMessage
    Sample.HandleCallResponse Sample.st0
    (concat [Sample.frame42] ++ [x00; x00]) 77 =
  (fun '(status, consumed', st'') =>
     (status,
      if Status.ok status then frames_length [Sample.frame42] + consumed'
      else consumed',
      st'')) <$>
    ProcessCalls Sample.rpc_max_message_size 0 unit Sample.ParseYBMessage
      Sample.HandleCallResponse Sample.st1 [x00; x00] 77.
Proof.
  apply (ProcessCalls_resume Sample.rpc_max_message_size 0 unit
           Sample.ParseYBMessage Sample.HandleCallResponse
           Sample.st0 Sample.st1 [Sample.frame42] [x00; x00] 77);
    Sample.frames_ok.
Defined.

Lemma ProcessCalls_ok_frames_witness :
  exists (frames : list Slice) (tail : Slice),
    Sample.frame42 ++ [x00; x00] = concat frames ++ tail /\
    Forall complete_frame frames /\
    Forall (within_limit Sample.rpc_max_message_size) frames /\
    incomplete_tail Sample.rpc_max_message_size tail /\
    HandleCalls 0 unit Sample.ParseYBMessage Sample.HandleCallResponse
      Sample.st0 (frame_payload <$> frames) = Some Sample.st1 /\
    7 = frames_length frames.
Proof.
  apply (ProcessCalls_ok_frames Sample.rpc_max_message_size 0 unit
           Sample.ParseYBMessage Sample.HandleCallResponse Sample.st0
           (Sample.frame42 ++ [x00; x00]) 77 Status.OK 7 Sample.st1);
    Sample.frames_ok.
Defined.

(** Call 42 comes in and is erased: the context is empty again. *)
Lemma EraseCall_after_HandleInboundCall_witness :
  calls_being_handled_
    (context
       (HandleInboundCall 0 unit Sample.ParseYBMessage Sample.st0
          [x2a; x02; x07]).2)
    !! call_id (ParseFrom Sample.ParseYBMessage (YBInboundCall_new 0)
                  [x2a; x02; x07]).2 =
    Some (ParseFrom Sample.ParseYBMessage (YBInboundCall_new 0)
            [x2a; x02; x07]).2 /\
  Idle
    (context
       (HandleInboundCall 0 unit Sample.ParseYBMessage Sample.st0
          [x2a; x02; x07]).2) = false /\
  EraseCall
    (context
       (HandleInboundCall 0 unit Sample.ParseYBMessage Sample.st0
          [x2a; x02; x07]).2)
    (ParseFrom Sample.ParseYBMessage (YBInboundCall_new 0) [x2a; x02; x07]).2 =
    context Sample.st0.
Proof.
  apply (EraseCall_after_HandleInboundCall 0 unit Sample.ParseYBMessage
           Sample.st0 [x2a; x02; x07]).
  vm_compute. reflexivity.
Defined.

(** Call 42 is being handled; once it is erased, another call 42 is
    accepted. *)
Lemma HandleInboundCall_after_EraseCall_witness :
  Status.ok
    (HandleInboundCall 0 unit Sample.ParseYBMessage
       (with_context unit Sample.st1
          (EraseCall (context Sample.st1) Sample.call42))
       [x2a; x02; x09]).1 = true.
Proof.
  apply (HandleInboundCall_after_EraseCall 0 unit Sample.ParseYBMessage
           Sample.st1 [x2a; x02; x09] Sample.call42);
    vm_compute; reflexivity.
Defined.

(** Call 42 twice in one buffer: an error, and call 42 delivered once. *)
Lemma ProcessCalls_server_effects_witness :
  exists new, delivered unit Sample.st0 Sample.st1 new.
Proof.
  apply (ProcessCalls_server_effects Sample.rpc_max_message_size 0 unit
           Sample.ParseYBMessage Sample.HandleCallResponse Sample.st0
           (Sample.frame42 ++ Sample.frame42) 77 MoreSamples.duplicate 77
           Sample.st1);
    vm_compute; reflexivity.
Defined.

(** A response on a client connection. *)
Lemma ProcessCalls_client_effects_witness :
  context MoreSamples.client = context MoreSamples.client /\
  messenger_inbound MoreSamples.client = messenger_inbound MoreSamples.client /\
  direction (connection MoreSamples.client) = CLIENT.
Proof.
  apply (ProcessCalls_client_effects Sample.rpc_max_message_size 0 unit
           Sample.ParseYBMessage Sample.HandleCallResponse MoreSamples.client
           Sample.frame42 77 Status.OK 7 MoreSamples.client);
    [intros conn call_data; reflexivity | reflexivity
    | vm_compute; reflexivity].
Defined.

Lemma ProcessCalls_calls_consistent_witness :
  calls_consistent unit Sample.st1 /\
  calls_consistent unit
    (with_context unit Sample.st1
       (EraseCall (context Sample.st1) Sample.call42)).
Proof.
  apply (ProcessCalls_calls_consistent Sample.rpc_max_message_size 0 unit
           Sample.ParseYBMessage Sample.HandleCallResponse Sample.st0
           (Sample.frame42 ++ Sample.frame42) 77 MoreSamples.duplicate 77
           Sample.st1 Sample.call42).
  - split; [|constructor]. intros k call Hk. vm_compute in Hk. discriminate Hk.
  - vm_compute. reflexivity.
Defined.

(** Sidecars of two bytes and of one: three additional bytes. *)
Lemma response_header_additional_size_witness :
  (response_header Slice slice_size ResponseSample.call
     ResponseSample.response true).2 = 3 /\
  (response_header Slice slice_size ResponseSample.call
     ResponseSample.response true).1.2 = 10.
Proof.
  apply (response_header_additional_size Slice slice_size ResponseSample.call
           ResponseSample.response true).
  vm_compute. reflexivity.
Defined.

(** The response buffer and the two sidecars: three buffers, two
    offsets. *)
Lemma Serialize_after_SerializeResponseBuffer_witness :
  header_
    (SerializeResponseBuffer Slice slice_size ResponseSample.SerializeMessage
       MoreSamples.SerializeHeader ResponseSample.call
       ResponseSample.response true).2 = header_ ResponseSample.call /\
  sidecars_
    (SerializeResponseBuffer Slice slice_size ResponseSample.SerializeMessage
       MoreSamples.SerializeHeader ResponseSample.call
       ResponseSample.response true).2 = sidecars_ ResponseSample.call /\
  Serialize
    (SerializeResponseBuffer Slice slice_size ResponseSample.SerializeMessage
       MoreSamples.SerializeHeader ResponseSample.call
       ResponseSample.response true).2 [] =
    Some ([] ++
          response_buf_
            (SerializeResponseBuffer Slice slice_size
               ResponseSample.SerializeMessage MoreSamples.SerializeHeader
               ResponseSample.call ResponseSample.response true).2 ::
          sidecars_ ResponseSample.call) /\
  length (sidecars_ ResponseSample.call) =
    length (resp_sidecar_offsets
              (response_header Slice slice_size ResponseSample.call
                 ResponseSample.response true).1.1).
Proof.
  apply (Serialize_after_SerializeResponseBuffer Slice slice_size
           ResponseSample.SerializeMessage MoreSamples.SerializeHeader
           ResponseSample.call ResponseSample.response true []).
  vm_compute. reflexivity.
Defined.

(** * [DelayedTask]: fire or abort, once *)

Module DelayedTask.

(** Modelled from the spec: [reactor.cc], which defines the methods of
    [DelayedTask], is not among the sources; [reactor.h] declares them.
    Section 4.3 of the specification: "On timer fire: [mark_done]
    (mutex-guarded; returns false if already done) -> if first to mark,
    invoke [func(OK)]"; "[abort(status)]: callable from any thread.
    Acquires the mutex, marks done if not already; if first, invokes
    [func(status)]"; "If aborted before [run] has armed the timer, the
    task must not arm it afterwards".  [reactor.h]: [MarkAsDone] sets
    [done_] to true if not set and returns true, and returns false if
    [done_] is already set; [done_] is guarded by [lock_].

    A task is shared by the reactor thread, which runs [Run] and later
    the timer handler, and by any number of threads that call
    [AbortTask].  Each of them is a [Path]; its program counter says how
    far it has come.  The threads interleave step by step; [lock_] is
    the only thing that holds a thread back. *)
Inductive Path : Type :=
  | TimerPath
  | AbortPath (abort_status : Status).

(** The status that a path hands to [func_]. *)
Definition status_of (p : Path) : Status :=
  match p with
  | TimerPath => Status.OK
  | AbortPath abort_status => abort_status
  end.

Inductive Pc : Set :=
  | Scheduled        (* the task is posted; [Run] has not started *)
  | RunLocked        (* [Run] holds [lock_] *)
  | Armed            (* [Run] has started the timer *)
  | Start            (* [MarkAsDone] is called *)
  | Locked           (* [MarkAsDone] holds [lock_] *)
  | Seen (d : bool)  (* [MarkAsDone] has read [done_], still holding [lock_] *)
  | Winner           (* [MarkAsDone] has returned true *)
  | Finished.

#[global] Instance Pc_eq_dec : EqDecision Pc.
Proof. solve_decision. Defined.

(** What the threads share.  [lock_] is the thread that holds it, if
    any; [calls] are the invocations of [func_], in their order; [order]
    is the order in which the paths have read [done_] in [MarkAsDone]
    (it is not part of the task: it only serves to say who was first). *)
Record Shared : Type := {
  done_ : bool;
  lock_ : option nat;
  calls : list Status;
  order : list Path
}.

Record State : Type := {
  shared : Shared;
  threads : list (Path * Pc)
}.

(** Where a path starts: the reactor thread at [Run], an aborting
    thread at [MarkAsDone]. *)
Definition entry (p : Path) : Pc :=
  match p with
  | TimerPath => Scheduled
  | AbortPath _ => Start
  end.

Definition init (paths : list Path) : State :=
  {| shared := {| done_ := false; lock_ := None; calls := []; order := [] |};
     threads := (fun p => (p, entry p)) <$> paths |}.

(** One step of thread [i]; [None] when the thread cannot move: it has
    finished, or it waits for [lock_]. *)
Definition step_thread (sh : Shared) (i : nat) (p : Path) (pc : Pc)
  : option (Shared * Pc) :=
  match pc with
  | Scheduled =>
      (* Run: lock_guard l(lock_) *)
      if lock_ sh is Some _ then None
      else Some ({| done_ := done_ sh; lock_ := Some i; calls := calls sh;
                    order := order sh |}, RunLocked)
  | RunLocked =>
      (* Run: aborted already: return; otherwise start the timer *)
      Some ({| done_ := done_ sh; lock_ := None; calls := calls sh;
               order := order sh |},
            if done_ sh then Finished else Armed)
  | Armed =>
      (* the timer fires: TimerHandler calls MarkAsDone *)
      Some (sh, Start)
  | Start =>
      (* MarkAsDone: lock_guard l(lock_) *)
      if lock_ sh is Some _ then None
      else Some ({| done_ := done_ sh; lock_ := Some i; calls := calls sh;
                    order := order sh |}, Locked)
  | Locked =>
      (* MarkAsDone: reads done_ *)
      Some ({| done_ := done_ sh; lock_ := lock_ sh; calls := calls sh;
               order := order sh ++ [p] |}, Seen (done_ sh))
  | Seen true =>
      (* MarkAsDone: return false; the caller returns *)
      Some ({| done_ := done_ sh; lock_ := None; calls := calls sh;
               order := order sh |}, Finished)
  | Seen false =>
      (* MarkAsDone: done_ = true; return true *)
      Some ({| done_ := true; lock_ := None; calls := calls sh;
               order := order sh |}, Winner)
  | Winner =>
      (* func_(status) *)
      Some ({| done_ := done_ sh; lock_ := lock_ sh;
               calls := calls sh ++ [status_of p]; order := order sh |},
            Finished)
  | Finished => None
  end.

(** Thread [i] takes a step. *)
Definition step (s : State) (i : nat) : option State :=
  match threads s !! i with
  | Some (p, pc) =>
      match step_thread (shared s) i p pc with
      | Some (sh, pc') =>
          Some {| shared := sh; threads := <[i := (p, pc')]> (threads s) |}
      | None => None
      end
  | None => None
  end.

(** An interleaving: the threads that step, in order.  [None] when one
    of them cannot. *)
Fixpoint run (s : State) (schedule : list nat) : option State :=
  match schedule with
  | [] => Some s
  | i :: schedule =>
      match step s i with
      | Some s' => run s' schedule
      | None => None
      end
  end.

(** All threads have returned. *)
Definition quiescent (s : State) : Prop :=
  Forall (fun t => t.2 = Finished) (threads s).

(** The program counters at which a thread holds [lock_]. *)
Definition holds (pc : Pc) : bool :=
  match pc with
  | RunLocked | Locked | Seen _ => true
  | _ => false
  end.

(** The steps that a thread still has before it at most. *)
Definition steps_left (pc : Pc) : nat :=
  match pc with
  | Scheduled => 7
  | RunLocked => 6
  | Armed => 5
  | Start => 4
  | Locked => 3
  | Seen _ => 2
  | Winner => 1
  | Finished => 0
  end.

Definition work_left (s : State) : nat :=
  sum_list_with (fun t => steps_left t.2) (threads s).

(** What holds of every state that the threads of [paths] can reach. *)
Record Inv (paths : list Path) (s : State) : Prop := {
  inv_paths : (threads s).*1 = paths;
  inv_holder : forall j p pc, threads s !! j = Some (p, pc) ->
    (holds pc = true <-> lock_ (shared s) = Some j);
  inv_locked : forall h, lock_ (shared s) = Some h ->
    exists p pc, threads s !! h = Some (p, pc) /\ holds pc = true;
  inv_seen : forall j p d, threads s !! j = Some (p, Seen d) ->
    d = done_ (shared s);
  inv_finished : forall j p, threads s !! j = Some (p, Finished) ->
    done_ (shared s) = true;
  inv_pending : done_ (shared s) = false ->
    calls (shared s) = [] /\
    (forall j p, threads s !! j <> Some (p, Winner)) /\
    ((order (shared s) = [] /\
      forall j p d, threads s !! j <> Some (p, Seen d)) \/
     (exists j p, threads s !! j = Some (p, Seen false) /\
                  order (shared s) = [p]));
  inv_done : done_ (shared s) = true ->
    exists w p,
      head (order (shared s)) = Some p /\
      ((threads s !! w = Some (p, Winner) /\ calls (shared s) = []) \/
       (threads s !! w = Some (p, Finished) /\
        calls (shared s) = [status_of p])) /\
      forall j q, threads s !! j = Some (q, Winner) -> j = w
}.

Lemma Inv_init paths : Inv paths (init paths).
Proof.
  assert (forall j p pc, threads (init paths) !! j = Some (p, pc) ->
            pc = Scheduled \/ pc = Start) as Hentry.
  { intros j p pc. cbn. rewrite list_lookup_fmap.
    destruct (paths !! j) as [[|st]|]; cbn; intros [= <- <-]; auto. }
  split; cbn [init shared threads done_ lock_ calls order].
  - rewrite <- list_fmap_compose. apply list_fmap_id.
  - intros j p pc Hj. destruct (Hentry j p pc Hj) as [-> | ->]; cbn; split; discriminate.
  - discriminate.
  - intros j p d Hj. destruct (Hentry j p _ Hj); discriminate.
  - intros j p Hj. destruct (Hentry j p _ Hj); discriminate.
  - intros _. split; [reflexivity|]. split.
    + intros j p Hj. destruct (Hentry j p _ Hj); discriminate.
    + left. split; [reflexivity|]. intros j p d Hj.
      destruct (Hentry j p _ Hj); discriminate.
  - discriminate.
Qed.

Lemma lookup_update (ts : list (Path * Pc)) i j x y t :
  ts !! i = Some x -> <[i := y]> ts !! j = Some t ->
  (j = i /\ t = y) \/ (j <> i /\ ts !! j = Some t).
Proof.
  intros Hi Hj. destruct (decide (j = i)) as [->|Hne].
  - rewrite list_lookup_insert_eq in Hj by (eapply lookup_lt_Some; eassumption).
    left. split; congruence.
  - rewrite list_lookup_insert_ne in Hj by congruence. right. auto.
Qed.

Lemma update_paths (ts : list (Path * Pc)) i p pc pc' :
  ts !! i = Some (p, pc) -> (<[i := (p, pc')]> ts).*1 = ts.*1.
Proof.
  intros Hi. rewrite list_fmap_insert. cbn [fst].
  apply list_insert_id. rewrite list_lookup_fmap, Hi. reflexivity.
Qed.

Lemma lookup_updated (ts : list (Path * Pc)) i x y :
  ts !! i = Some x -> <[i := y]> ts !! i = Some y.
Proof.
  intros Hi. apply list_lookup_insert_eq. eapply lookup_lt_Some; eassumption.
Qed.

Ltac updated Hi :=
  repeat match goal with
    | H : <[_ := _]> _ !! _ = Some _ |- _ =>
        destruct (lookup_update _ _ _ _ _ _ Hi H) as [[-> ?]|[? ?]];
        clear H; simplify_eq
    end.

Ltac step_cases Hstep Hi Hme :=
  let p := fresh "p" in
  let pc := fresh "pc" in
  unfold step in Hstep;
  match type of Hstep with
  | context [threads ?s !! ?i] =>
      destruct (threads s !! i) as [[p pc]|] eqn:Hi; [|discriminate];
      destruct s as [[done lock calls order] ts]; cbn in *;
      destruct pc as [| | | | |[]| |]; cbn in Hstep;
      try discriminate Hstep;
      try (destruct lock as [?h|]; [discriminate|]);
      try (destruct done eqn:?Hd);
      injection Hstep as <-;
      cbn [shared threads done_ lock_ DelayedTask.calls DelayedTask.order]
  end.

Ltac old_facts Hholder Hseen Hfinished :=
  repeat match goal with
    | H : _ !! _ = Some _ |- _ =>
        pose proof (Hholder _ _ _ H);
        try pose proof (Hseen _ _ _ H);
        try pose proof (Hfinished _ _ H);
        revert H
    end;
  intros.

Lemma Inv_step_threads paths s i s' :
  Inv paths s -> step s i = Some s' ->
  (forall j p pc, threads s' !! j = Some (p, pc) ->
     (holds pc = true <-> lock_ (shared s') = Some j)) /\
  (forall j p d, threads s' !! j = Some (p, Seen d) -> d = done_ (shared s')) /\
  (forall j p, threads s' !! j = Some (p, Finished) -> done_ (shared s') = true).
Proof.
  intros [Hpaths Hholder Hlocked Hseen Hfinished Hpending Hdone] Hstep.
  step_cases Hstep Hi Hme.
  all: (split; [|split]); intros; updated Hi; old_facts Hholder Hseen Hfinished;
    cbn in *; try (intuition congruence).
  destruct (Hpending eq_refl) as (_ & Hnw & _). destruct (Hnw _ _ Hi).
Qed.

Lemma Inv_step_locked paths s i s' :
  Inv paths s -> step s i = Some s' ->
  forall h, lock_ (shared s') = Some h ->
    exists p pc, threads s' !! h = Some (p, pc) /\ holds pc = true.
Proof.
  intros [Hpaths Hholder Hlocked Hseen Hfinished Hpending Hdone] Hstep.
  step_cases Hstep Hi Hme.
  all: intros h' Hh'; try discriminate Hh'.
  all: try (injection Hh' as <-; eexists _, _;
            split; [apply (lookup_updated _ _ _ _ Hi)|reflexivity]).
  all: destruct (Hlocked h' Hh') as (q & pcq & Hq & Hholds).
  all: destruct (decide (h' = i)) as [->|Hne];
    [rewrite Hi in Hq; simplify_eq;
     first [discriminate Hholds
           |eexists _, _;
            split; [apply (lookup_updated _ _ _ _ Hi)|reflexivity]]
    |exists q, pcq; split; [rewrite list_lookup_insert_ne by congruence|];
     assumption].
Qed.

Lemma Inv_step_pending paths s i s' :
  Inv paths s -> step s i = Some s' ->
  done_ (shared s') = false ->
  calls (shared s') = [] /\
  (forall j p, threads s' !! j <> Some (p, Winner)) /\
  ((order (shared s') = [] /\
    forall j p d, threads s' !! j <> Some (p, Seen d)) \/
   (exists j p, threads s' !! j = Some (p, Seen false) /\
                order (shared s') = [p])).
Proof.
  intros [Hpaths Hholder Hlocked Hseen Hfinished Hpending Hdone] Hstep.
  step_cases Hstep Hi Hme.
  all: intros Hf; try discriminate Hf.
  all: destruct (Hpending eq_refl) as (Hcalls & Hnw & Horder).
  all: try (destruct (Hnw _ _ Hi)).
  all: split; [assumption|].
  all: split; [intros j q Hj; updated Hi; eapply Hnw; eassumption|].
  all: try (pose proof (Hseen _ _ _ Hi); discriminate).
  all: destruct Horder as [[-> Hns]|(j' & q' & Hj' & ->)].
  all: try (left; split; [reflexivity|];
            intros j q d Hj; updated Hi; eapply Hns; eassumption).
  all: try (destruct (decide (j' = i)) as [->|Hne]; [congruence|];
            right; exists j', q';
            split; [rewrite list_lookup_insert_ne by congruence; assumption
                   |reflexivity]).
  - right. exists i, p. split; [apply (lookup_updated _ _ _ _ Hi)|reflexivity].
  - pose proof (Hholder _ _ _ Hi) as Hmine. pose proof (Hholder _ _ _ Hj') as Htheirs.
    cbn in Hmine, Htheirs.
    destruct Hmine as [Hmine _], Htheirs as [Htheirs _].
    rewrite (Hmine eq_refl) in Htheirs. specialize (Htheirs eq_refl).
    congruence.
Qed.

Lemma Inv_step_done paths s i s' :
  Inv paths s -> step s i = Some s' ->
  done_ (shared s') = true ->
  exists w p,
    head (order (shared s')) = Some p /\
    ((threads s' !! w = Some (p, Winner) /\ calls (shared s') = []) \/
     (threads s' !! w = Some (p, Finished) /\
      calls (shared s') = [status_of p])) /\
    forall j q, threads s' !! j = Some (q, Winner) -> j = w.
Proof.
  intros [Hpaths Hholder Hlocked Hseen Hfinished Hpending Hdone] Hstep.
  step_cases Hstep Hi Hme.
  all: intros Ht; try discriminate Ht.
  all: try (pose proof (Hseen _ _ _ Hi); discriminate).
  all: try (destruct (Hdone eq_refl) as (w & p0 & Hhead & Hw & Huniq)).
  (* the steps that leave [done_], [calls] and the winner alone *)
  all: try (assert (w <> i) as Hne by (intros ->; destruct Hw as [[? _]|[? _]]; congruence);
            exists w, p0;
            split; [destruct order; [discriminate Hhead|exact Hhead]|];
            split; [rewrite list_lookup_insert_ne by congruence; exact Hw
                   |intros j q Hj; updated Hi; eapply Huniq; eassumption]).
  - (* [done_ = true]: this thread is the first to have read [done_] *)
    destruct (Hpending eq_refl) as (Hcalls & Hnw & Horder).
    assert (order = [p]) as ->.
    { destruct Horder as [[_ Hns]|(j' & q' & Hj' & ->)];
        [destruct (Hns _ _ _ Hi)|].
      pose proof (Hholder _ _ _ Hi) as Hmine.
      pose proof (Hholder _ _ _ Hj') as Htheirs. cbn in Hmine, Htheirs.
      destruct Hmine as [Hmine _], Htheirs as [Htheirs _].
      rewrite (Hmine eq_refl) in Htheirs. specialize (Htheirs eq_refl).
      simplify_eq. reflexivity. }
    exists i, p. split; [reflexivity|]. split.
    + left. split; [apply (lookup_updated _ _ _ _ Hi)|assumption].
    + intros j q Hj. updated Hi; [reflexivity|]. exfalso. eapply Hnw. eassumption.
  - (* [func_] is invoked *)
    pose proof (Huniq _ _ Hi) as ->.
    destruct Hw as [[Hw ->]|[Hw _]]; [|congruence].
    exists w, p. split; [congruence|]. split.
    + right. split; [apply (lookup_updated _ _ _ _ Hi)|reflexivity].
    + intros j q Hj. updated Hi. eapply Huniq; eassumption.
Qed.


Lemma Inv_step paths s i s' : Inv paths s -> step s i = Some s' -> Inv paths s'.
Proof.
  intros HI Hstep.
  destruct (Inv_step_threads paths s i s' HI Hstep) as (Hholder & Hseen & Hfinished).
  split; try assumption.
  - destruct HI as [Hpaths _ _ _ _ _ _]. unfold step in Hstep.
    destruct (threads s !! i) as [[p pc]|] eqn:Hi; [|discriminate].
    destruct (step_thread _ _ _ _) as [[sh pc']|]; [|discriminate].
    injection Hstep as <-. cbn [threads].
    rewrite (update_paths _ _ _ _ _ Hi). exact Hpaths.
  - exact (Inv_step_locked paths s i s' HI Hstep).
  - exact (Inv_step_pending paths s i s' HI Hstep).
  - exact (Inv_step_done paths s i s' HI Hstep).
Qed.

Lemma Inv_run paths schedule :
  forall s s', Inv paths s -> run s schedule = Some s' -> Inv paths s'.
Proof.
  induction schedule as [|i schedule IH]; intros s s' HI Hrun; cbn in Hrun.
  - injection Hrun as <-. exact HI.
  - destruct (step s i) as [s1|] eqn:Hstep; [|discriminate].
    exact (IH s1 s' (Inv_step paths s i s1 HI Hstep) Hrun).
Qed.

(** [func_] is never invoked twice. *)
Lemma Inv_at_most_once paths s : Inv paths s -> (length (calls (shared s)) <= 1)%nat.
Proof.
  intros HI. destruct (done_ (shared s)) eqn:Hd.
  - destruct (inv_done paths s HI Hd) as (w & p & _ & [[_ ->]|[_ ->]] & _);
      cbn; lia.
  - destruct (inv_pending paths s HI Hd) as (-> & _). cbn. lia.
Qed.

(** When all threads have returned, [func_] has been invoked once, with
    the status of the path that was the first to read [done_]. *)
Lemma Inv_quiescent paths s :
  Inv paths s -> quiescent s -> paths <> [] ->
  exists p, p ∈ paths /\ head (order (shared s)) = Some p /\
            calls (shared s) = [status_of p].
Proof.
  intros HI Hq Hne. unfold quiescent in Hq. rewrite Forall_lookup in Hq.
  assert (exists t, threads s !! 0%nat = Some t) as [[p0 pc0] H0].
  { destruct (threads s) as [|t ts] eqn:Hts; [|eauto].
    destruct Hne. rewrite <- (inv_paths paths s HI), Hts. reflexivity. }
  pose proof (Hq _ _ H0) as Hpc0. cbn in Hpc0. subst pc0.
  pose proof (inv_finished paths s HI _ _ H0) as Hd.
  destruct (inv_done paths s HI Hd) as (w & p & Hhead & [[Hw _]|[Hw Hcalls]] & _).
  - pose proof (Hq _ _ Hw) as Hpc. discriminate Hpc.
  - exists p. split; [|split; assumption].
    rewrite <- (inv_paths paths s HI). apply list_elem_of_fmap.
    exists (p, Finished). split; [reflexivity|].
    apply list_elem_of_lookup. eauto.
Qed.

(** No deadlock: as long as a thread has not returned, some thread can
    take a step. *)
Lemma Inv_progress paths s :
  Inv paths s -> ~ quiescent s -> exists i s', step s i = Some s'.
Proof.
  intros HI Hnq. destruct (lock_ (shared s)) as [h|] eqn:Hlock.
  - destruct (inv_locked paths s HI h Hlock) as (p & pc & Hh & Hholds).
    exists h. unfold step. rewrite Hh.
    destruct pc as [| | | | |[]| |]; try discriminate Hholds; cbn; eauto.
  - apply not_Forall_Exists in Hnq; [|intros t; apply _].
    apply Exists_exists in Hnq as ([p pc] & Hin & Hpc).
    apply list_elem_of_lookup in Hin as [j Hj].
    exists j. unfold step. rewrite Hj. cbn in Hpc.
    destruct pc as [| | | | |[]| |]; cbn; rewrite ?Hlock; eauto.
    destruct Hpc. reflexivity.
Qed.

Lemma sum_list_with_update {A} (f : A -> nat) (l : list A) :
  forall i x y, l !! i = Some x ->
  (sum_list_with f (<[i := y]> l) + f x = sum_list_with f l + f y)%nat.
Proof.
  induction l as [|a l IH]; intros [|i] x y Hi; try discriminate Hi.
  - injection Hi as ->. cbn. lia.
  - change (<[S i := y]> (a :: l)) with (a :: <[i := y]> l).
    cbn [sum_list_with]. specialize (IH i x y Hi). lia.
Qed.

(** Every step uses up some of the work that is left. *)
Lemma step_work_left s i s' :
  step s i = Some s' -> (work_left s' < work_left s)%nat.
Proof.
  unfold step, work_left. intros Hstep.
  destruct (threads s !! i) as [[p pc]|] eqn:Hi; [|discriminate].
  destruct (step_thread _ _ _ _) as [[sh pc']|] eqn:Hthread; [|discriminate].
  injection Hstep as <-. cbn [threads].
  pose proof (sum_list_with_update (fun t : Path * Pc => steps_left t.2)
                (threads s) i (p, pc) (p, pc') Hi) as Hsum.
  cbn [snd] in Hsum.
  assert (steps_left pc' < steps_left pc)%nat; [|lia].
  destruct pc as [| | | | |[]| |]; cbn in Hthread;
    repeat match type of Hthread with
      | context [match ?x with _ => _ end] => destruct x
      end;
    simplify_eq; cbn; lia.
Qed.

Lemma run_work_left schedule :
  forall s s', run s schedule = Some s' ->
  (length schedule + work_left s' <= work_left s)%nat.
Proof.
  induction schedule as [|i schedule IH]; intros s s' Hrun; cbn in Hrun.
  - injection Hrun as <-. cbn. lia.
  - destruct (step s i) as [s1|] eqn:Hstep; [|discriminate].
    pose proof (step_work_left s i s1 Hstep). specialize (IH s1 s' Hrun).
    cbn [length]. lia.
Qed.

Lemma work_left_init paths : (work_left (init paths) <= 7 * length paths)%nat.
Proof.
  unfold work_left, init. cbn [threads].
  induction paths as [|[|st] paths IH]; cbn in *; lia.
Qed.

(** C8: whatever the interleaving of the timer path and of any number of
    aborting threads (whose status is not OK), [func_] is never invoked
    twice; the interleaving ends (the number of steps is bounded) and is
    not stuck before every thread has returned; and when every thread
    has returned [func_] has been invoked exactly once, with the status
    of the path that was the first to read [done_] under [lock_]: OK if
    and only if that was the timer path.  The other paths find [done_]
    set and return without invoking anything. *)
Theorem func_invoked_exactly_once paths schedule s :
  Forall (fun p => Status.ok (status_of p) = true -> p = TimerPath) paths ->
  run (init paths) schedule = Some s ->
  (length (calls (shared s)) <= 1)%nat /\
  (length schedule <= 7 * length paths)%nat /\
  (~ quiescent s -> exists i s', step s i = Some s') /\
  (quiescent s -> paths <> [] ->
   exists p, head (order (shared s)) = Some p /\
             calls (shared s) = [status_of p] /\
             (Status.ok (status_of p) = true <-> p = TimerPath)).
Proof.
  intros Habort Hrun.
  pose proof (Inv_run paths schedule _ _ (Inv_init paths) Hrun) as HI.
  split; [exact (Inv_at_most_once paths s HI)|].
  split.
  { pose proof (run_work_left schedule _ _ Hrun).
    pose proof (work_left_init paths). lia. }
  split; [exact (Inv_progress paths s HI)|].
  intros Hq Hne.
  destruct (Inv_quiescent paths s HI Hq Hne) as (p & Hin & Hhead & Hcalls).
  exists p. split; [assumption|]. split; [assumption|]. split.
  - rewrite Forall_forall in Habort. exact (Habort p Hin).
  - intros ->. reflexivity.
Qed.

End DelayedTask.

(** The reactor shuts down while the timer is armed: the aborting thread
    takes [lock_] first, the timer fires while it holds it; [func_] is
    invoked once, with the status of the abort. *)
Module DelayedTaskSample.
Import DelayedTask.

Definition shutting_down : Status :=
  Status.mk Status.kServiceUnavailable "Reactor is shutting down".

Definition paths : list Path := [TimerPath; AbortPath shutting_down].

Definition abort_wins : list nat := [0; 0; 1; 0; 1; 1; 0; 0; 1; 0]%nat.

Definition timer_wins : list nat := [0; 0; 0; 0; 0; 0; 1; 0; 1; 1]%nat.

Definition aborted_before_run : list nat := [1; 1; 1; 1; 0; 0]%nat.

Definition final (order : list Path) (status : Status) : State :=
  {| shared := {| done_ := true; lock_ := None; calls := [status];
                  order := order |};
     threads := [(TimerPath, Finished); (AbortPath shutting_down, Finished)] |}.

End DelayedTaskSample.

Lemma func_invoked_exactly_once_witness :
  let s := DelayedTaskSample.final
             [DelayedTask.AbortPath DelayedTaskSample.shutting_down;
              DelayedTask.TimerPath]
             DelayedTaskSample.shutting_down in
  (length (DelayedTask.calls (DelayedTask.shared s)) <= 1)%nat /\
  (length DelayedTaskSample.abort_wins <= 7 * length DelayedTaskSample.paths)%nat /\
  (~ DelayedTask.quiescent s -> exists i s', DelayedTask.step s i = Some s') /\
  (DelayedTask.quiescent s -> DelayedTaskSample.paths <> [] ->
   exists p, head (DelayedTask.order (DelayedTask.shared s)) = Some p /\
             DelayedTask.calls (DelayedTask.shared s) = [DelayedTask.status_of p] /\
             (Status.ok (DelayedTask.status_of p) = true <-> p = DelayedTask.TimerPath)).
Proof.
  apply (DelayedTask.func_invoked_exactly_once DelayedTaskSample.paths
           DelayedTaskSample.abort_wins).
  - repeat constructor. intros Hok. discriminate Hok.
  - reflexivity.
Defined.

(** The timer fires first: [func_(OK)], and the abort is a no-op.  The
    task is aborted before [Run]: the timer is never armed. *)
Example DelayedTask_interleavings :
  DelayedTask.run (DelayedTask.init DelayedTaskSample.paths)
    DelayedTaskSample.timer_wins =
    Some (DelayedTaskSample.final
            [DelayedTask.TimerPath;
             DelayedTask.AbortPath DelayedTaskSample.shutting_down]
            Status.OK) /\
  DelayedTask.run (DelayedTask.init DelayedTaskSample.paths)
    DelayedTaskSample.aborted_before_run =
    Some (DelayedTaskSample.final
            [DelayedTask.AbortPath DelayedTaskSample.shutting_down]
            DelayedTaskSample.shutting_down).
Proof. split; reflexivity. Qed.
